(** * VCT InSite 4.0 payload codec (vendor/vct/insite-4b-codec.js)

    A shallow embedding of the uplink decoder and the downlink encoder of the
    smart-helmet codec, together with the part of the JavaScript run time the
    codec relies on (typed arrays, DataView reads, number formatting, Date).

    Conventions of the embedding:
    - an integer-valued JavaScript number is a [Z]; a number that the code
      computes with fractions (coordinates, temperatures) is a binary64
      [float], the kernel's primitive IEEE-754 double;
    - a JavaScript string is a [string]: one 8-bit code unit per character,
      which covers every literal of the codec;
    - a call that may throw returns a [completion]; the first throw of a
      sequence of calls is the one that propagates;
    - reading an array outside its bounds gives [None], JavaScript's
      [undefined];
    - the rounding error of the binary64 operations is bounded over the
      reals, from the specification of the operations in [FloatAxioms] and
      [SpecFloat]. *)

From Stdlib Require Import ZArith List String Ascii Bool Lia.
From Stdlib Require Import Floats.
From Stdlib Require Import Reals Lra.
Import ListNotations.

Local Open Scope Z_scope.

(* ================================================================== *)
(** * The JavaScript run time used by the codec                        *)
(* ================================================================== *)

Module Js.

(** Thrown values: the two error constructors the codec can reach. *)
Inductive exn : Type :=
| Error (msg : string)
| RangeError (msg : string).

(** Result of evaluating an expression: a value, or an abrupt completion. *)
Inductive completion (A : Type) : Type :=
| Normal (a : A)
| Throw (e : exn).

Arguments Normal {A} a.
Arguments Throw {A} e.

Definition bind {A B : Type} (c : completion A) (k : A -> completion B)
  : completion B :=
  match c with
  | Normal a => k a
  | Throw e => Throw e
  end.

Definition returns {A : Type} (c : completion A) : Prop :=
  exists a, c = Normal a.

(** ** Arrays *)

(** [a[i]]: the element, or [undefined] outside the bounds. *)
Definition get {A : Type} (a : list A) (i : nat) : option A := nth_error a i.

(** [a.slice(start, end)] for non-negative literal bounds: both are clamped
    to the length, and an empty range gives the empty array. *)
Definition slice {A : Type} (a : list A) (start stop : nat) : list A :=
  firstn (stop - start) (skipn start a).

(** [x === k] for a number literal [k]: [undefined] equals no number. *)
Definition strict_eq (x : option Z) (k : Z) : bool :=
  match x with
  | Some v => v =? k
  | None => false
  end.

(** ToUint8: what a store into a [Uint8Array] or [setUint8] keeps. *)
Definition ToUint8 (x : Z) : Z := x mod 256.

(** ToNumber of [undefined] is NaN, and a NaN stored in a typed array is 0. *)
Definition ToUint8_elem (x : option Z) : Z :=
  match x with
  | Some v => ToUint8 v
  | None => 0
  end.

(** ** DataView reads over a buffer of bytes *)

(** Big-endian unsigned value of a run of bytes. *)
Fixpoint be_uint (acc : Z) (bs : list Z) : Z :=
  match bs with
  | [] => acc
  | b :: bs' => be_uint (acc * 256 + b) bs'
  end.

(** Little-endian unsigned value of a run of bytes. *)
Fixpoint le_uint (bs : list Z) : Z :=
  match bs with
  | [] => 0
  | b :: bs' => b + 256 * le_uint bs'
  end.

Definition getUint8 (buf : list Z) (off : nat) : Z :=
  be_uint 0 (slice buf off (off + 1)).

Definition getUint16_be (buf : list Z) (off : nat) : Z :=
  be_uint 0 (slice buf off (off + 2)).

Definition getUint32_be (buf : list Z) (off : nat) : Z :=
  be_uint 0 (slice buf off (off + 4)).

(** [view.setUint8(i, v)]: a RangeError outside the buffer. *)
Definition setUint8 (buf : list Z) (i : nat) (v : Z) : completion (list Z) :=
  if (i <? List.length buf)%nat
  then Normal (firstn i buf ++ ToUint8 v :: skipn (S i) buf)
  else Throw (RangeError "Offset is outside the bounds of the DataView").

(** The binary64 value of a 64-bit pattern: sign (bit 63), biased exponent
    (bits 62..52), fraction (bits 51..0). *)
Definition float_of_bits (w : Z) : float :=
  let s := Z.testbit w 63 in
  let e := Z.land (Z.shiftr w 52) 2047 in
  let m := Z.land w (2 ^ 52 - 1) in
  if e =? 2047 then
    if m =? 0 then (if s then neg_infinity else infinity) else nan
  else if e =? 0 then
    if m =? 0 then (if s then neg_zero else zero)
    else SF2Prim (S754_finite s (Z.to_pos m) (-1074))
  else SF2Prim (S754_finite s (Z.to_pos (m + 2 ^ 52)) (e - 1075)).

(** [view.getFloat64(off, true)] on a buffer that holds the 8 bytes. *)
Definition getFloat64_le (buf : list Z) (off : nat) : float :=
  float_of_bits (le_uint (slice buf off (off + 8))).

(** ** Numbers *)

(** The number with an integer value (exact below 2^53 in magnitude). *)
Definition Number_of_Z (z : Z) : float :=
  if z <? 0 then (- (of_uint63 (Uint63.of_Z (- z))))%float
  else of_uint63 (Uint63.of_Z z).

(** [Math.floor]: NaN, the zeros and the infinities are returned as they
    are, and so is a value whose exponent leaves no fractional bits. *)
Definition Math_floor (x : float) : float :=
  match Prim2SF x with
  | S754_finite s m e =>
      if 0 <=? e then x
      else
        let q := Z.shiftr (Z.pos m) (- e) in
        let exact := Z.land (Z.pos m) (2 ^ (- e) - 1) =? 0 in
        if exact then x
        else if s then Number_of_Z (- (q + 1))
        else Number_of_Z q
  | _ => x
  end.

(** ** Strings *)

Definition charCode (c : ascii) : Z := Z.of_nat (nat_of_ascii c).

Definition hex_digit (d : Z) : ascii :=
  if d <? 10 then ascii_of_nat (Z.to_nat (48 + d))
  else ascii_of_nat (Z.to_nat (87 + d)).

Fixpoint to_hex (fuel : nat) (n : Z) (acc : string) : string :=
  match fuel with
  | O => acc
  | S fuel' =>
      let acc' := String (hex_digit (n mod 16)) acc in
      if n <? 16 then acc' else to_hex fuel' (n / 16) acc'
  end.

(** [n.toString(16)] of an integer: lowercase digits, a minus sign first for
    a negative one. *)
Definition toString16 (n : Z) : string :=
  let digits := to_hex (S (Z.to_nat (Z.log2 (Z.abs n)))) (Z.abs n) EmptyString in
  if n <? 0 then String "-"%char digits else digits.

Fixpoint repeat_string (n : nat) (pad : string) : string :=
  match n with
  | O => EmptyString
  | S n' => append pad (repeat_string n' pad)
  end.

(** [s.padStart(len, c)] for a one-character filler. *)
Definition padStart (s : string) (len : nat) (c : ascii) : string :=
  append (repeat_string (len - String.length s) (String c EmptyString)) s.

(** [a.join(sep)] *)
Fixpoint join (sep : string) (a : list string) : string :=
  match a with
  | [] => EmptyString
  | [s] => s
  | s :: rest => append s (append sep (join sep rest))
  end.

(** ** Dates *)

(** A Date holds a time value in milliseconds, or NaN ([None], an invalid
    date).  The embedding keeps the time value in local time, which is the
    frame [setHours] works in; the conversion between local time and the UTC
    time value that a Date stores (time zone offset, daylight saving) is not
    modelled. *)
Definition Date : Type := option Z.

Definition msPerDay : Z := 86400000.
Definition msPerHour : Z := 3600000.
Definition msPerMinute : Z := 60000.
Definition msPerSecond : Z := 1000.

Definition Day (t : Z) : Z := t / msPerDay.

Definition MakeTime (h m s ms : Z) : Z :=
  h * msPerHour + m * msPerMinute + s * msPerSecond + ms.

Definition MakeDate (day time : Z) : Z := day * msPerDay + time.

Definition TimeClip (t : Z) : Date :=
  if Z.abs t <=? 8640000000000000 then Some t else None.

(** [date.setHours(h, m, s, ms)]: an argument that is not a number makes the
    date invalid; otherwise the time within the local day is replaced.  The
    run time converts the result from local time back to UTC, which moves a
    time that falls in a daylight-saving gap; that step is left out. *)
Definition setHours (date : Date) (h m s ms : option Z) : Date :=
  match date, h, m, s, ms with
  | Some t, Some h', Some m', Some s', Some ms' =>
      TimeClip (MakeDate (Day t) (MakeTime h' m' s' ms'))
  | _, _, _, _, _ => None
  end.

End Js.

Notation "x <- c ;; k" := (Js.bind c (fun x => k))
  (at level 61, c at next level, right associativity).

(* ================================================================== *)
(** * Data model                                                       *)
(* ================================================================== *)

Module SOS.
Record t : Type := mk {
  data_type : string;
  alarm : string;
  device_mac : string
}.
End SOS.

Module GPS.
Record t : Type := mk {
  data_type : string;
  latitude : float;
  longitude : float
}.
End GPS.

Module Vitals.
Record t : Type := mk {
  data_type : string;
  blood_oxygen : option Z;
  wear_status : bool;
  stress_level : option Z;
  rri : Z;
  activity_intensity : option Z;
  blood_pressure_sbp : option Z;
  blood_pressure_dbp : option Z;
  calories : Z;
  surface_temperature : float;
  steps_today : Z;
  body_temperature : float;
  heart_rate : option Z;
  alarm : string;
  battery : option Z;
  lorawan_region : string;
  beacon_id1 : Z;
  beacon_id1_rssi : option Z;
  beacon_id2 : Z;
  beacon_id2_rssi : option Z;
  beacon_id3 : Z;
  beacon_id3_rssi : option Z;
  movement_detection : bool;
  red_key : bool;
  black_key : bool;
  mainboard_temperature : option Z;
  uv_value : option Z;
  fw_version : option Z;
  fall_detection : bool;
  time_calibration : bool;
  time : Js.Date;
  device_mac : string
}.
End Vitals.

(** The object under [data] in the decoder's result: one of the three frame
    records, or [{ error: ... }]. *)
Inductive decoded : Type :=
| DataSOS (r : SOS.t)
| DataGPS (r : GPS.t)
| DataVitals (r : Vitals.t)
| DataError (error : string).

Module Uplink.
(** [recvTime] and [variables] are never read and are left out. *)
Record input : Type := mkInput {
  bytes : list Z;
  fPort : Z
}.
Record output : Type := mkOutput {
  data : decoded
}.
End Uplink.

(** The command object of the encoder, its fields typed as the header comment
    of [encodeDownlink] documents them. *)
Module Command.
Record t : Type := mk {
  data_type : string;
  uplink_interval_vitals : Z;
  uplink_interval_gps : Z;
  time : string;
  scan : bool;
  alert_sound : bool;
  alert_type : Z
}.
End Command.

Module Downlink.
Record input : Type := mkInput {
  data : Command.t
}.
(** [{ bytes: [...] }] or [{ errors: [...] }]. *)
Inductive output : Type :=
| Bytes (bytes : list Z)
| Errors (errors : list string).
End Downlink.

(** The values the codec hands to [stringToBytes]: string literals, the
    [time] string, and the boolean [scan] flag. *)
Inductive value : Type :=
| VString (s : string)
| VBool (b : bool).

(** An element of the array given to [flatten]: an array or a number. *)
Inductive item : Type :=
| Arr (a : list Z)
| Num (n : Z).

(* ================================================================== *)
(** * The codec                                                        *)
(* ================================================================== *)

Import Js.

(** ** Binary primitives *)

Definition getAlarmType (code : option Z) : string :=
  match code with
  | Some 1 => "SOS"
  | Some 2 => "FIRE"
  | Some 3 => "SOS"
  | _ => "N/A"
  end.

Definition getFirmwareBroadcastMode (code : Z) : string :=
  let scan_mode : string :=
    if Z.eqb (Z.land code 1) 0 then "BROADCAST"%string else "SCAN"%string in
  let color_mode : string :=
    if Z.eqb (Z.land code 2) 0 then "RED"%string else "GREEN"%string in
  append scan_mode (append ", " color_mode).

Definition getLorawanRegion (code : option Z) : string :=
  match code with
  | Some 0 => "AS923-1"
  | Some 1 => "AU915"
  | Some 2 => "EU868"
  | Some 3 => "KR920"
  | Some 4 => "IN865"
  | Some 5 => "US915"
  | Some 6 => "RU864"
  | _ => "N/A"
  end.

(** A fresh [Uint8Array] of the same length, filled from the last element
    to the first: [reversedArray[i] = byteArray[length - 1 - i]]. *)
Definition toBigEndian (byteArray : list Z) : list Z :=
  let len := List.length byteArray in
  map (fun i => ToUint8_elem (get byteArray (len - 1 - i))) (seq 0 len).

Definition byteArrayToInteger (byteArray : list Z) : completion Z :=
  if (List.length byteArray =? 0)%nat
  then Throw (Error "Byte array must have at least one element.")
  else
    (* view.set(byteArray) on a Uint8Array over a buffer of that length *)
    let dataView := map ToUint8 byteArray in
    match List.length byteArray with
    | 1%nat => Normal (getUint8 dataView 0)
    | 2%nat => Normal (getUint16_be dataView 0)
    | 4%nat => Normal (getUint32_be dataView 0)
    | _ => Throw (Error
        "Byte array length must be 1, 2, or 4 bytes to convert to an integer.")
    end.

(** The [forEach] of [byteArrayToDouble]: [view.setUint8(i, byte)] for each
    element in turn. *)
Fixpoint forEach_setUint8 (byteArray : list Z) (i : nat) (view : list Z)
  : completion (list Z) :=
  match byteArray with
  | [] => Normal view
  | byte :: rest =>
      view' <- setUint8 view i byte ;;
      forEach_setUint8 rest (S i) view'
  end.

Definition byteArrayToDouble (byteArray : list Z) : completion float :=
  if (List.length byteArray =? 0)%nat
  then Throw (Error "Byte array must have at least one element.")
  else
    let buffer := repeat 0 8 in
    view <- forEach_setUint8 byteArray 0 buffer ;;
    Normal (getFloat64_le view 0).

Definition getDeviceMac (macBytes : list Z) : string :=
  join ":" (map (fun byte => padStart (toString16 byte) 2 "0"%char)
                (toBigEndian macBytes)).

(** ** Uplink decoder *)

Definition decodeSOSData (bytes : list Z) : SOS.t :=
  {| SOS.data_type := "SOS";
     SOS.alarm := getAlarmType (get bytes 0);
     SOS.device_mac := getDeviceMac (slice bytes 1 7) |}.

Record DM : Type := mkDM {
  degrees : float;
  minutes : float
}.

Definition parseGPS (bytes : list Z) : completion DM :=
  doubleValue <- byteArrayToDouble bytes ;;
  let degrees := Math_floor (doubleValue / 100)%float in
  let minutes := (doubleValue - degrees * 100)%float in
  Normal {| degrees := degrees; minutes := minutes |}.

Definition dmToDecimal (degrees minutes : float) (direction : string)
  : float :=
  let decimalDegrees := (degrees + minutes / 60)%float in
  if (String.eqb direction "S" || String.eqb direction "W")%bool
  then (- decimalDegrees)%float
  else decimalDegrees.

Definition decodeGPSData (bytes : list Z) : completion GPS.t :=
  let lng_dir : string :=
    (if strict_eq (get bytes 8) 0x45 then "E"
     else if strict_eq (get bytes 8) 0x57 then "W" else "Unknown")%string in
  let lat_dir : string :=
    (if strict_eq (get bytes 17) 0x4e then "N"
     else if strict_eq (get bytes 17) 0x53 then "S" else "Unknown")%string in
  lngDM <- parseGPS (slice bytes 0 8) ;;
  latDM <- parseGPS (slice bytes 9 17) ;;
  let latitude := dmToDecimal (degrees latDM) (minutes latDM) lat_dir in
  let longitude := dmToDecimal (degrees lngDM) (minutes lngDM) lng_dir in
  Normal {| GPS.data_type := "GPS";
            GPS.latitude := latitude;
            GPS.longitude := longitude |}.

(** The literal [0.01], the double nearest to one hundredth. *)
Definition one_hundredth : float := 0x1.47ae147ae147bp-7%float.

(** [now] is the value of [new Date()], the one read of the clock. *)
Definition decodeVitalsData (now : Date) (bytes : list Z)
  : completion Vitals.t :=
  let date := setHours now (get bytes 36) (get bytes 37) (get bytes 38)
                       (Some 0) in
  rri <- byteArrayToInteger (toBigEndian (slice bytes 3 5)) ;;
  calories <- byteArrayToInteger (toBigEndian (slice bytes 8 10)) ;;
  surface <- byteArrayToInteger (toBigEndian (slice bytes 10 12)) ;;
  steps_today <- byteArrayToInteger (toBigEndian (slice bytes 12 14)) ;;
  body <- byteArrayToInteger (toBigEndian (slice bytes 14 16)) ;;
  beacon_id1 <- byteArrayToInteger (toBigEndian (slice bytes 20 22)) ;;
  beacon_id2 <- byteArrayToInteger (toBigEndian (slice bytes 23 25)) ;;
  beacon_id3 <- byteArrayToInteger (toBigEndian (slice bytes 26 28)) ;;
  Normal {|
    Vitals.data_type := "VITALS";
    Vitals.blood_oxygen := get bytes 0;
    Vitals.wear_status := strict_eq (get bytes 1) 1;
    Vitals.stress_level := get bytes 2;
    Vitals.rri := rri;
    Vitals.activity_intensity := get bytes 5;
    Vitals.blood_pressure_sbp := get bytes 6;
    Vitals.blood_pressure_dbp := get bytes 7;
    Vitals.calories := calories;
    Vitals.surface_temperature := (Number_of_Z surface * one_hundredth)%float;
    Vitals.steps_today := steps_today;
    Vitals.body_temperature := (Number_of_Z body * one_hundredth)%float;
    Vitals.heart_rate := get bytes 16;
    Vitals.alarm := getAlarmType (get bytes 17);
    Vitals.battery := get bytes 18;
    Vitals.lorawan_region := getLorawanRegion (get bytes 19);
    Vitals.beacon_id1 := beacon_id1;
    Vitals.beacon_id1_rssi := get bytes 22;
    Vitals.beacon_id2 := beacon_id2;
    Vitals.beacon_id2_rssi := get bytes 25;
    Vitals.beacon_id3 := beacon_id3;
    Vitals.beacon_id3_rssi := get bytes 28;
    Vitals.movement_detection := strict_eq (get bytes 29) 1;
    Vitals.red_key := strict_eq (get bytes 30) 1;
    Vitals.black_key := strict_eq (get bytes 31) 1;
    Vitals.mainboard_temperature := get bytes 32;
    Vitals.uv_value := get bytes 33;
    Vitals.fw_version := get bytes 34;
    Vitals.fall_detection := strict_eq (get bytes 35) 1;
    Vitals.time_calibration := strict_eq (get bytes 36) 1;
    Vitals.time := date;
    Vitals.device_mac := getDeviceMac (slice bytes 41 47)
  |}.

Definition decodeUplink (now : Date) (input : Uplink.input)
  : completion Uplink.output :=
  let bytes := Uplink.bytes input in
  match List.length bytes with
  | 9%nat =>
      Normal {| Uplink.data := DataSOS (decodeSOSData bytes) |}
  | 22%nat =>
      data <- decodeGPSData bytes ;;
      Normal {| Uplink.data := DataGPS data |}
  | 49%nat =>
      data <- decodeVitalsData now bytes ;;
      Normal {| Uplink.data := DataVitals data |}
  | _ =>
      Normal {| Uplink.data := DataError "Invalid payload length" |}
  end.

(** ** Downlink encoder *)

(** [str.length] is [undefined] on a boolean, the test [i < str.length] is
    then false at once and the loop body never runs. *)
Definition stringToBytes (str : value) : list Z :=
  match str with
  | VString s => map charCode (list_ascii_of_string s)
  | VBool _ => []
  end.

Definition flatten (arrays : list item) : list Z :=
  fold_left
    (fun flatArray it =>
       match it with
       | Arr a => flatArray ++ a
       | Num n => flatArray ++ [n]
       end)
    arrays [].

Definition intervalMap : list (Z * string) :=
  [ (1, "7"); (5, "1"); (10, "2"); (15, "3"); (30, "4"); (60, "5");
    (120, "6") ]%string.

(** [intervalMap[interval]] for an integer [interval]. *)
Fixpoint lookup (m : list (Z * string)) (key : Z) : option string :=
  match m with
  | [] => None
  | (k, v) :: m' => if k =? key then Some v else lookup m' key
  end.

(** [undefined] and the empty string are falsy. *)
Definition getUplinkIntervalCode (interval : Z) : completion Z :=
  match lookup intervalMap interval with
  | Some (String c _) => Normal (charCode c)
  | _ => Throw (Error "Invalid uplink interval.")
  end.

Definition encodeDownlink (input : Downlink.input)
  : completion Downlink.output :=
  let endChar := [13; 10] in
  let data := Downlink.data input in
  let data_type := Command.data_type data in
  if String.eqb data_type "UPLINK" then
    vitals <- getUplinkIntervalCode (Command.uplink_interval_vitals data) ;;
    gps <- getUplinkIntervalCode (Command.uplink_interval_gps data) ;;
    Normal (Downlink.Bytes (flatten
      [ Arr (stringToBytes (VString "UPLINK:")); Num vitals;
        Arr (stringToBytes (VString ",")); Num gps; Arr endChar ]))
  else if String.eqb data_type "TIME" then
    Normal (Downlink.Bytes (flatten
      [ Arr (stringToBytes (VString "TIME:"));
        Arr (stringToBytes (VString (Command.time data))); Arr endChar ]))
  else if String.eqb data_type "SCAN" then
    Normal (Downlink.Bytes (flatten
      [ Arr (stringToBytes (VString "SCAN:"));
        Arr (stringToBytes (VBool (Command.scan data))); Arr endChar ]))
  else if String.eqb data_type "ALERT" then
    Normal (Downlink.Bytes (flatten
      [ Arr (stringToBytes (VString "ALERT:"));
        Arr (stringToBytes
               (VString (if Command.alert_sound data then "1" else "2")));
        Arr (stringToBytes (VString ","));
        Arr (stringToBytes (VString "0")); Arr endChar ]))
  else
    Normal (Downlink.Errors ["Invalid data type"%string]).

(* ================================================================== *)
(** * Vocabulary of the statements                                     *)
(* ================================================================== *)

(** An unsigned 8-bit value. *)
Definition is_byte (b : Z) : Prop := 0 <= b < 256.

(** What counts as a decoded record: any [data] but the length error. *)
Definition is_record (d : decoded) : Prop :=
  match d with
  | DataError _ => False
  | _ => True
  end.

(** The frame of the SOS example. *)
Definition sos_example : list Z := [1; 0; 1; 2; 3; 4; 5; 6; 7].

(** A frame with longitude 17958.0 (179 degrees 58 minutes) E and latitude
    2200.0 (22 degrees) under the marker 0x3f, which is neither N nor S. *)
Definition gps_example : list Z :=
  [ 0; 0; 0; 0; 0x80; 0x89; 0xd1; 0x40; 0x45;
    0; 0; 0; 0; 0; 0x30; 0xa1; 0x40; 0x3f; 0; 0; 0; 0 ].

(** Decimal degrees before the hemisphere is applied. *)
Definition unsigned_degrees (dm : DM) : float :=
  (degrees dm + minutes dm / 60)%float.

(** A frame with the byte at index [i] replaced. *)
Definition set_byte (i : nat) (v : Z) (bytes : list Z) : list Z :=
  firstn i bytes ++ v :: skipn (S i) bytes.

Definition with_bytes (input : Uplink.input) (bytes : list Z) : Uplink.input :=
  {| Uplink.bytes := bytes; Uplink.fPort := Uplink.fPort input |}.

(** The arguments of the eight [byteArrayToInteger] calls of
    [decodeVitalsData], in the order of the calls. *)
Definition vitals_integer_args (bytes : list Z) : list (list Z) :=
  [ toBigEndian (slice bytes 3 5); toBigEndian (slice bytes 8 10);
    toBigEndian (slice bytes 10 12); toBigEndian (slice bytes 12 14);
    toBigEndian (slice bytes 14 16); toBigEndian (slice bytes 20 22);
    toBigEndian (slice bytes 23 25); toBigEndian (slice bytes 26 28) ].

(** The arguments of the two [byteArrayToDouble] calls that [decodeGPSData]
    makes through [parseGPS]. *)
Definition gps_double_args (bytes : list Z) : list (list Z) :=
  [ slice bytes 0 8; slice bytes 9 17 ].

(** The ASCII codes of a text, one per character. *)
Definition ascii_bytes (s : string) : list Z :=
  map (fun c => Z.of_nat (nat_of_ascii c)) (list_ascii_of_string s).

(** The intervals the header comment of [encodeDownlink] lists. *)
Definition valid_intervals : list Z := [1; 5; 10; 15; 30; 60; 120].

(** The interval codes as the specification tabulates them. *)
Definition spec_interval_codes : list (Z * ascii) :=
  [ (1, "7"); (5, "1"); (10, "2"); (15, "3"); (30, "4"); (60, "5");
    (120, "6") ]%char.

(** The encoder input with the given command fields. *)
Definition command (data_type : string) (vitals gps : Z) (time : string)
  (scan alert_sound : bool) (alert_type : Z) : Downlink.input :=
  {| Downlink.data :=
       {| Command.data_type := data_type;
          Command.uplink_interval_vitals := vitals;
          Command.uplink_interval_gps := gps;
          Command.time := time;
          Command.scan := scan;
          Command.alert_sound := alert_sound;
          Command.alert_type := alert_type |} |}.

(** Two commands that agree on every field but [alert_type]. *)
Definition same_but_alert_type (c1 c2 : Command.t) : Prop :=
  Command.data_type c1 = Command.data_type c2
  /\ Command.uplink_interval_vitals c1 = Command.uplink_interval_vitals c2
  /\ Command.uplink_interval_gps c1 = Command.uplink_interval_gps c2
  /\ Command.time c1 = Command.time c2
  /\ Command.scan c1 = Command.scan c2
  /\ Command.alert_sound c1 = Command.alert_sound c2.

(** A byte as two lowercase hexadecimal digits, high nibble first. *)
Definition hex2 (b : Z) : string :=
  String (hex_digit (b / 16)) (String (hex_digit (b mod 16)) EmptyString).

(** The value of a lowercase hexadecimal digit. *)
Definition hex_value (c : ascii) : Z :=
  let n := Z.of_nat (nat_of_ascii c) in
  if n <? 58 then n - 48 else n - 87.

(** What an element of [flatten]'s argument contributes. *)
Definition item_contents (it : item) : list Z :=
  match it with
  | Arr a => a
  | Num n => [n]
  end.

(** Whether the packed value [100 * D + M] splits exactly into [D] degrees
    and [M] minutes under [parseGPS]'s two operations. *)
Definition splits_exactly (D M : Z) : bool :=
  let doubleValue := Number_of_Z (100 * D + M) in
  let degrees := Math_floor (doubleValue / 100)%float in
  (PrimFloat.Leibniz.eqb degrees (Number_of_Z D)
   && PrimFloat.Leibniz.eqb (doubleValue - degrees * 100)%float
        (Number_of_Z M))%bool.

(** ** Real values of binary64 numbers *)

(** The value of a finite binary64 number is [m * 2 ^ e] for its mantissa
    and exponent; the statements that bound a rounding error are made on
    these values. *)
Definition bpow (e : Z) : R := powerRZ 2 e.
Definition F2R (m e : Z) : R := (IZR m * bpow e)%R.

(** The real value of an unpacked number; the zeros have value 0, and the
    value given to NaN and the infinities is never used. *)
Definition SF2R (x : spec_float) : R :=
  match x with
  | S754_finite s m e => F2R (cond_Zopp s (Z.pos m)) e
  | _ => 0%R
  end.

(** Neither NaN nor an infinity. *)
Definition SF_finite (x : spec_float) : bool :=
  match x with
  | S754_finite _ _ _ | S754_zero _ => true
  | _ => false
  end.

Abbreviation fexp64 := (fexp prec emax).
Abbreviation valid64 := (SpecFloat.valid_binary prec emax).

(** Twice the unit of the exponent bound: the error allowed to one
    operation on numbers below [2 ^ 15]. *)
Definition eps : R := (2 * bpow (-37))%R.

(** The real value of a number of the codec, and whether it has one. *)
Definition FR (x : float) : R := SF2R (Prim2SF x).
Definition Ffin (x : float) : Prop := SF_finite (Prim2SF x) = true.

(** Finite and below [2 ^ 15] in magnitude. *)
Definition small (x : float) : Prop :=
  Ffin x /\ (- 32768 < FR x < 32768)%R.

(** [x] is the whole number [k >= 0], read off its mantissa and exponent. *)
Definition is_int_float (x : float) (k : Z) : bool :=
  match Prim2SF x with
  | S754_zero _ => k =? 0
  | S754_finite false m e => (e <=? 0) && (Z.pos m =? k * 2 ^ (- e))
  | _ => false
  end.

(** ** GPS frames of a position *)

(** Modelled from the spec: the packed form [DDMM.MMMMM] of a coordinate in
    decimal degrees, whole degrees times 100 plus decimal minutes, computed
    on the magnitude in binary64. *)
Definition pack_ddmm (c : float) : float :=
  let a := abs c in
  let D := Math_floor a in
  (D * 100 + (a - D) * 60)%float.

(** Modelled from the spec: the tolerance of the round trip, the binary64
    number nearest [1e-5]. *)
Definition tolerance : float := 0x1.4f8b588e368f1p-17%float.

(** What [parseGPS] and [dmToDecimal] make of a packed value before the
    hemisphere sign. *)
Definition unpack_ddmm (p : float) : float :=
  unsigned_degrees
    {| degrees := Math_floor (p / 100)%float;
       minutes := (p - Math_floor (p / 100) * 100)%float |}.

(** Modelled from the spec: the 64-bit pattern of a binary64 number, sign
    (bit 63), biased exponent (bits 62..52), fraction (bits 51..0); NaN is
    written as the quiet NaN with an empty payload. *)
Definition bits_of_float (x : float) : Z :=
  match Prim2SF x with
  | S754_zero s => if s then 2 ^ 63 else 0
  | S754_infinity s => (if s then 2 ^ 63 else 0) + 2047 * 2 ^ 52
  | S754_nan => 2047 * 2 ^ 52 + 2 ^ 51
  | S754_finite s m e =>
      (if s then 2 ^ 63 else 0)
      + (if Z.pos m <? 2 ^ 52 then Z.pos m
         else (e + 1075) * 2 ^ 52 + (Z.pos m - 2 ^ 52))
  end.

(** Modelled from the spec: the [n] low bytes of [w], least significant
    first (little-endian). *)
Fixpoint le_bytes (n : nat) (w : Z) : list Z :=
  match n with
  | O => []
  | S n' => w mod 256 :: le_bytes n' (w / 256)
  end.

(** Modelled from the spec: a number written as a little-endian IEEE-754
    double, 8 bytes. *)
Definition setFloat64_le (x : float) : list Z := le_bytes 8 (bits_of_float x).

(** Modelled from the spec: the 22-byte GPS frame of a position, each
    coordinate packed and written as a little-endian double, longitude first,
    each followed by its hemisphere byte ([E]/[W] at byte 8, [N]/[S] at byte
    17, the negative coordinate being west or south), then four bytes the
    decoder does not read. *)
Definition gps_frame (lng lat : float) (tail : list Z) : list Z :=
  setFloat64_le (pack_ddmm lng)
  ++ (if (lng <? 0)%float then 0x57 else 0x45)
  :: setFloat64_le (pack_ddmm lat)
  ++ (if (lat <? 0)%float then 0x53 else 0x4e)
  :: tail.

(* ================================================================== *)
(** * Properties of the run-time layer and of the binary primitives    *)
(* ================================================================== *)

Lemma ToUint8_byte (b : Z) : is_byte b -> ToUint8 b = b.
Proof. unfold is_byte, ToUint8. intros H. apply Z.mod_small. exact H. Qed.

Lemma ToUint8_is_byte (x : Z) : is_byte (ToUint8 x).
Proof. unfold is_byte, ToUint8. apply Z.mod_pos_bound. lia. Qed.

Lemma map_ToUint8_bytes (l : list Z) :
  Forall is_byte l -> map ToUint8 l = l.
Proof.
  induction 1 as [|b l Hb _ IH]; simpl.
  - reflexivity.
  - rewrite ToUint8_byte by exact Hb. rewrite IH. reflexivity.
Qed.

Lemma slice_length {A : Type} (l : list A) (start stop : nat) :
  (stop <= List.length l)%nat ->
  List.length (slice l start stop) = (stop - start)%nat.
Proof.
  intros H. unfold slice. rewrite length_firstn, length_skipn. lia.
Qed.

Lemma slice_Forall {A : Type} (P : A -> Prop) (l : list A) (start stop : nat) :
  Forall P l -> Forall P (slice l start stop).
Proof.
  intros H. unfold slice.
  rewrite <- (firstn_skipn start l) in H.
  apply Forall_app in H. destruct H as [_ H].
  rewrite <- (firstn_skipn (stop - start) (skipn start l)) in H.
  apply Forall_app in H. destruct H as [H _]. exact H.
Qed.

(** The index loop of [toBigEndian] is a reversal followed by the typed
    array's store conversion. *)
Lemma toBigEndian_rev (l : list Z) : toBigEndian l = map ToUint8 (rev l).
Proof.
  unfold toBigEndian.
  apply (nth_ext _ _ 0 0).
  - rewrite !length_map, length_seq, length_rev. reflexivity.
  - intros n Hn. rewrite length_map, length_seq in Hn.
    rewrite (nth_indep _ 0 (ToUint8_elem (get l (List.length l - 1 - 0))))
      by (rewrite length_map, length_seq; exact Hn).
    rewrite (map_nth (fun i => ToUint8_elem (get l (List.length l - 1 - i)))).
    rewrite seq_nth by exact Hn. simpl.
    rewrite (nth_indep _ 0 (ToUint8 0))
      by (rewrite length_map, length_rev; exact Hn).
    rewrite (map_nth ToUint8).
    rewrite rev_nth by exact Hn.
    unfold get.
    replace (List.length l - 1 - n)%nat with (List.length l - S n)%nat by lia.
    rewrite (nth_error_nth' l 0) by lia.
    reflexivity.
Qed.

Lemma toBigEndian_length (l : list Z) :
  List.length (toBigEndian l) = List.length l.
Proof. unfold toBigEndian. rewrite length_map, length_seq. reflexivity. Qed.

Lemma toBigEndian_bytes (l : list Z) : Forall is_byte (toBigEndian l).
Proof.
  rewrite toBigEndian_rev. apply Forall_forall. intros x Hx.
  apply in_map_iff in Hx. destruct Hx as [y [<- _]]. apply ToUint8_is_byte.
Qed.

(** A two-byte array is read as a big-endian 16-bit value. *)
Lemma byteArrayToInteger_two (hi lo : Z) :
  byteArrayToInteger [hi; lo] = Normal (ToUint8 hi * 256 + ToUint8 lo).
Proof. reflexivity. Qed.

(** Arrays of a supported width never reach a throw. *)
Lemma byteArrayToInteger_returns (l : list Z) :
  In (List.length l) [1; 2; 4]%nat -> returns (byteArrayToInteger l).
Proof.
  intros H. unfold returns.
  destruct l as [|a [|b [|c [|d [|e l]]]]]; simpl in H;
    try (exfalso; lia); eexists; reflexivity.
Qed.

(** Arrays of any other width throw. *)
Lemma byteArrayToInteger_throws (l : list Z) :
  ~ In (List.length l) [1; 2; 4]%nat ->
  exists msg, byteArrayToInteger l = Throw (Error msg).
Proof.
  intros H.
  destruct l as [|a [|b [|c [|d [|e l]]]]]; simpl in H;
    try (exfalso; apply H; tauto); eexists; reflexivity.
Qed.

(** C5. For every two-byte sequence [s] of bytes,
    [byteArrayToInteger (toBigEndian s)] is [s[0] + 256 * s[1]]: reversing
    the slice and reading it big-endian is the little-endian 16-bit read. *)
Theorem byteArrayToInteger_toBigEndian_le16 (s : list Z) :
  List.length s = 2%nat ->
  Forall is_byte s ->
  byteArrayToInteger (toBigEndian s) = Normal (nth 0 s 0 + 256 * nth 1 s 0).
Proof.
  intros Hlen Hs.
  destruct s as [|lo [|hi [|x s]]]; try discriminate Hlen.
  rewrite toBigEndian_rev. simpl rev. simpl map.
  rewrite byteArrayToInteger_two.
  apply Forall_cons_iff in Hs. destruct Hs as [Hlo Hs].
  apply Forall_cons_iff in Hs. destruct Hs as [Hhi _].
  rewrite !ToUint8_byte by (apply ToUint8_is_byte || assumption).
  simpl nth. f_equal. lia.
Qed.

Lemma byteArrayToInteger_toBigEndian_le16_witness :
  byteArrayToInteger (toBigEndian [0x34; 0x12]) = Normal 0x1234.
Proof.
  apply (byteArrayToInteger_toBigEndian_le16 [0x34; 0x12]).
  - reflexivity.
  - repeat constructor; unfold is_byte; lia.
Defined.

(** A reversed pair of bytes, read big-endian. *)
Lemma byteArrayToInteger_reversed_pair (lo hi : Z) :
  is_byte lo -> is_byte hi ->
  byteArrayToInteger (toBigEndian [lo; hi]) = Normal (lo + 256 * hi).
Proof.
  intros Hlo Hhi. rewrite toBigEndian_rev. simpl rev. simpl map.
  rewrite byteArrayToInteger_two.
  rewrite !ToUint8_byte by (apply ToUint8_is_byte || assumption).
  f_equal. lia.
Qed.

(** The same read at an offset of a longer frame. *)
Lemma byteArrayToInteger_slice_le16 (bytes : list Z) (start stop : nat) :
  Forall is_byte bytes ->
  stop = (start + 2)%nat ->
  (stop <= List.length bytes)%nat ->
  byteArrayToInteger (toBigEndian (slice bytes start stop))
  = Normal (nth start bytes 0 + 256 * nth (S start) bytes 0).
Proof.
  intros Hb -> Hlen.
  assert (Hs : Forall is_byte (slice bytes start (start + 2)))
    by (apply slice_Forall; exact Hb).
  assert (Hl : List.length (slice bytes start (start + 2)) = 2%nat)
    by (rewrite slice_length by exact Hlen; lia).
  assert (H0 : nth 0 (slice bytes start (start + 2)) 0 = nth start bytes 0).
  { unfold slice. rewrite nth_firstn, nth_skipn.
    replace (start + 2 - start)%nat with 2%nat by lia. simpl.
    rewrite Nat.add_0_r. reflexivity. }
  assert (H1 : nth 1 (slice bytes start (start + 2)) 0
               = nth (S start) bytes 0).
  { unfold slice. rewrite nth_firstn, nth_skipn.
    replace (start + 2 - start)%nat with 2%nat by lia. simpl.
    rewrite Nat.add_1_r. reflexivity. }
  destruct (slice bytes start (start + 2)) as [|lo [|hi [|x s]]];
    try discriminate Hl.
  cbn [nth] in H0, H1. subst lo hi.
  apply byteArrayToInteger_reversed_pair.
  - apply (Forall_inv Hs).
  - apply (Forall_inv (Forall_inv_tail Hs)).
Qed.

(** A store inside the buffer keeps its length and changes one cell. *)
Lemma setUint8_inside (view : list Z) (i : nat) (v : Z) :
  (i < List.length view)%nat ->
  setUint8 view i v = Normal (firstn i view ++ ToUint8 v :: skipn (S i) view).
Proof.
  intros Hi. unfold setUint8.
  destruct (Nat.ltb_spec i (List.length view)) as [_|Hge]; [reflexivity|lia].
Qed.

Lemma setUint8_outside (view : list Z) (i : nat) (v : Z) :
  (List.length view <= i)%nat ->
  exists msg, setUint8 view i v = Throw (RangeError msg).
Proof.
  intros Hi. unfold setUint8.
  destruct (Nat.ltb_spec i (List.length view)) as [Hlt|_]; [lia|].
  eexists. reflexivity.
Qed.

Lemma length_store {A : Type} (view : list A) (i : nat) (x : A) :
  (i < List.length view)%nat ->
  List.length (firstn i view ++ x :: skipn (S i) view) = List.length view.
Proof.
  intros Hi. rewrite length_app, length_firstn. cbn [List.length].
  rewrite length_skipn. lia.
Qed.

Lemma firstn_store {A : Type} (view : list A) (i : nat) (x : A) (tl : list A) :
  (i <= List.length view)%nat ->
  firstn (S i) (firstn i view ++ x :: tl) = firstn i view ++ [x].
Proof.
  intros Hi. rewrite firstn_app, length_firstn.
  rewrite (firstn_all2 (n := S i)) by (rewrite length_firstn; lia).
  replace (S i - Nat.min i (List.length view))%nat with 1%nat by lia.
  reflexivity.
Qed.

Lemma skipn_store {A : Type} (view : list A) (i n : nat) (x : A) :
  (i <= List.length view)%nat ->
  skipn (S i + n) (firstn i view ++ x :: skipn (S i) view)
  = skipn (i + S n) view.
Proof.
  intros Hi. rewrite skipn_app, length_firstn.
  rewrite (skipn_all2 (n := (S i + n)%nat))
    by (rewrite length_firstn; lia).
  replace (S i + n - Nat.min i (List.length view))%nat with (S n) by lia.
  rewrite skipn_cons, skipn_skipn. cbn [app].
  f_equal. lia.
Qed.

(** [forEach_setUint8] overwrites the run of the view that starts at [i]. *)
Lemma forEach_setUint8_fits (byteArray : list Z) :
  forall (i : nat) (view : list Z),
    (i + List.length byteArray <= List.length view)%nat ->
    forEach_setUint8 byteArray i view
    = Normal (firstn i view ++ map ToUint8 byteArray
                ++ skipn (i + List.length byteArray) view).
Proof.
  induction byteArray as [|b rest IH]; intros i view Hfit;
    cbn [forEach_setUint8 List.length map] in *.
  - rewrite Nat.add_0_r. cbn [app]. rewrite firstn_skipn. reflexivity.
  - rewrite setUint8_inside by lia. cbn [bind].
    rewrite IH by (rewrite length_store; lia).
    rewrite firstn_store, skipn_store by lia.
    rewrite <- app_assoc. reflexivity.
Qed.

(** A byte past the end of the buffer is a RangeError. *)
Lemma forEach_setUint8_overflow (byteArray : list Z) :
  forall (i : nat) (view : list Z),
    (i <= List.length view)%nat ->
    (List.length view < i + List.length byteArray)%nat ->
    exists msg, forEach_setUint8 byteArray i view = Throw (RangeError msg).
Proof.
  induction byteArray as [|b rest IH]; intros i view Hi Hover;
    cbn [forEach_setUint8 List.length] in *.
  - exfalso. lia.
  - destruct (Nat.lt_ge_cases i (List.length view)) as [Hlt|Hge].
    + rewrite setUint8_inside by exact Hlt. cbn [bind].
      apply IH; rewrite length_store by exact Hlt; lia.
    + destruct (setUint8_outside view i b Hge) as [msg ->].
      exists msg. reflexivity.
Qed.

(** Eight bytes are read as the little-endian double they spell. *)
Lemma byteArrayToDouble_eight (l : list Z) :
  List.length l = 8%nat ->
  byteArrayToDouble l = Normal (getFloat64_le (map ToUint8 l) 0).
Proof.
  intros Hlen. unfold byteArrayToDouble. rewrite Hlen.
  cbn [Nat.eqb].
  rewrite forEach_setUint8_fits by (rewrite Hlen; cbn [repeat List.length]; lia).
  rewrite Hlen. cbn [bind repeat firstn skipn Nat.add app].
  rewrite app_nil_r. reflexivity.
Qed.

Lemma byteArrayToDouble_empty :
  byteArrayToDouble []
  = Throw (Error "Byte array must have at least one element.").
Proof. reflexivity. Qed.

Lemma parseGPS_eight (l : list Z) :
  List.length l = 8%nat ->
  exists dm, parseGPS l = Normal dm.
Proof.
  intros Hlen. unfold parseGPS. rewrite byteArrayToDouble_eight by exact Hlen.
  cbn [bind]. eexists. reflexivity.
Qed.

(* ================================================================== *)
(** * The uplink decoder                                               *)
(* ================================================================== *)

(** The dispatch of [decodeUplink], one frame length at a time. *)
Lemma decodeUplink_9 (now : Date) (input : Uplink.input) :
  List.length (Uplink.bytes input) = 9%nat ->
  decodeUplink now input
  = Normal {| Uplink.data := DataSOS (decodeSOSData (Uplink.bytes input)) |}.
Proof. intros H. unfold decodeUplink. rewrite H. reflexivity. Qed.

Lemma decodeUplink_22 (now : Date) (input : Uplink.input) :
  List.length (Uplink.bytes input) = 22%nat ->
  decodeUplink now input
  = (data <- decodeGPSData (Uplink.bytes input) ;;
     Normal {| Uplink.data := DataGPS data |}).
Proof. intros H. unfold decodeUplink. rewrite H. reflexivity. Qed.

Lemma decodeUplink_49 (now : Date) (input : Uplink.input) :
  List.length (Uplink.bytes input) = 49%nat ->
  decodeUplink now input
  = (data <- decodeVitalsData now (Uplink.bytes input) ;;
     Normal {| Uplink.data := DataVitals data |}).
Proof. intros H. unfold decodeUplink. rewrite H. reflexivity. Qed.

Lemma decodeUplink_other (now : Date) (input : Uplink.input) :
  List.length (Uplink.bytes input) <> 9%nat ->
  List.length (Uplink.bytes input) <> 22%nat ->
  List.length (Uplink.bytes input) <> 49%nat ->
  decodeUplink now input
  = Normal {| Uplink.data := DataError "Invalid payload length" |}.
Proof.
  intros H9 H22 H49. unfold decodeUplink.
  remember (List.length (Uplink.bytes input)) as n eqn:E. clear E.
  do 50 (destruct n as [|n]; [try reflexivity; exfalso; lia|]).
  reflexivity.
Qed.

(** C1. A frame whose length is not 9, 22 or 49 decodes to the error record
    [{ error: 'Invalid payload length' }], and the call does not throw. *)
Theorem decodeUplink_invalid_length (now : Date) (input : Uplink.input) :
  ~ In (List.length (Uplink.bytes input)) [9; 22; 49]%nat ->
  decodeUplink now input
  = Normal {| Uplink.data := DataError "Invalid payload length" |}.
Proof.
  intros H. apply decodeUplink_other; intros E; apply H; rewrite E;
    simpl; tauto.
Qed.

Lemma decodeUplink_invalid_length_witness :
  decodeUplink (Some 0) {| Uplink.bytes := [1; 2; 3]; Uplink.fPort := 1 |}
  = Normal {| Uplink.data := DataError "Invalid payload length" |}.
Proof.
  apply (decodeUplink_invalid_length
           (Some 0) {| Uplink.bytes := [1; 2; 3]; Uplink.fPort := 1 |}).
  simpl. intros [H|[H|[H|[]]]]; discriminate H.
Defined.

(** C2, as stated, fails: whatever the clock and the port, the decoded MAC of
    the example frame is not "06:05:04:03:02:01". *)
Lemma decodeUplink_sos_example_not_060504030201 :
  ~ exists (now : Date) (fPort : Z) (r : SOS.t),
      decodeUplink now {| Uplink.bytes := sos_example; Uplink.fPort := fPort |}
      = Normal {| Uplink.data := DataSOS r |}
      /\ SOS.alarm r = "SOS"%string
      /\ SOS.device_mac r = "06:05:04:03:02:01"%string.
Proof.
  intros [now [fPort [r [Hdec [_ Hmac]]]]].
  rewrite decodeUplink_9 in Hdec by reflexivity.
  injection Hdec as <-.
  vm_compute in Hmac. discriminate Hmac.
Qed.

(** C2, amended. The example frame decodes to an SOS record with alarm "SOS"
    and device_mac "05:04:03:02:01:00": the MAC is bytes 1 to 6, last byte
    first. *)
Theorem decodeUplink_sos_example (now : Date) (fPort : Z) :
  decodeUplink now {| Uplink.bytes := sos_example; Uplink.fPort := fPort |}
  = Normal {| Uplink.data := DataSOS
      {| SOS.data_type := "SOS";
         SOS.alarm := "SOS";
         SOS.device_mac := "05:04:03:02:01:00" |} |}.
Proof. rewrite decodeUplink_9 by reflexivity. vm_compute. reflexivity. Qed.

(** ** GPS frames *)

(** Only the markers S and W negate. *)
Lemma dmToDecimal_cases (dm : DM) (direction : string) :
  dmToDecimal (degrees dm) (minutes dm) direction
  = if (String.eqb direction "S" || String.eqb direction "W")%bool
    then (- unsigned_degrees dm)%float
    else unsigned_degrees dm.
Proof. reflexivity. Qed.

(** [decodeGPSData] in terms of the two coordinate slices and the two
    hemisphere bytes. *)
Lemma decodeGPSData_cases (bytes : list Z) (lngDM latDM : DM) :
  parseGPS (slice bytes 0 8) = Normal lngDM ->
  parseGPS (slice bytes 9 17) = Normal latDM ->
  decodeGPSData bytes
  = Normal
      {| GPS.data_type := "GPS";
         GPS.latitude :=
           if strict_eq (get bytes 17) 0x53
           then (- unsigned_degrees latDM)%float
           else unsigned_degrees latDM;
         GPS.longitude :=
           if strict_eq (get bytes 8) 0x57
           then (- unsigned_degrees lngDM)%float
           else unsigned_degrees lngDM |}.
Proof.
  intros Hlng Hlat. unfold decodeGPSData.
  rewrite Hlng, Hlat. cbn [bind]. rewrite !dmToDecimal_cases.
  f_equal. f_equal.
  - destruct (get bytes 17) as [b|]; cbn [strict_eq]; [|reflexivity].
    destruct (Z.eqb_spec b 0x4e) as [->|_]; [reflexivity|].
    destruct (b =? 0x53); reflexivity.
  - destruct (get bytes 8) as [b|]; cbn [strict_eq]; [|reflexivity].
    destruct (Z.eqb_spec b 0x45) as [->|_]; [reflexivity|].
    destruct (b =? 0x57); reflexivity.
Qed.

(** Replacing one byte keeps the length and touches no other index. *)
Lemma set_byte_length (i : nat) (v : Z) (bytes : list Z) :
  (i < List.length bytes)%nat ->
  List.length (set_byte i v bytes) = List.length bytes.
Proof. apply length_store. Qed.

Lemma get_set_byte_same (i : nat) (v : Z) (bytes : list Z) :
  (i < List.length bytes)%nat -> get (set_byte i v bytes) i = Some v.
Proof.
  intros Hi. unfold get, set_byte.
  rewrite nth_error_app2 by (rewrite length_firstn; lia).
  rewrite length_firstn.
  replace (i - Nat.min i (List.length bytes))%nat with 0%nat by lia.
  reflexivity.
Qed.

Lemma get_set_byte_other (i j : nat) (v : Z) (bytes : list Z) :
  (i < List.length bytes)%nat -> i <> j ->
  get (set_byte i v bytes) j = get bytes j.
Proof.
  intros Hi Hij. unfold get, set_byte.
  destruct (Nat.lt_ge_cases j i) as [Hlt|Hge].
  - rewrite nth_error_app1 by (rewrite length_firstn; lia).
    rewrite nth_error_firstn.
    destruct (Nat.ltb_spec j i); [reflexivity|lia].
  - rewrite nth_error_app2 by (rewrite length_firstn; lia).
    rewrite length_firstn.
    replace (j - Nat.min i (List.length bytes))%nat with (S (j - S i)) by lia.
    cbn [nth_error]. rewrite nth_error_skipn. f_equal. lia.
Qed.

(** A slice that does not cover index [i] does not see the new byte. *)
Lemma slice_set_byte (i : nat) (v : Z) (bytes : list Z) (start stop : nat) :
  (i < List.length bytes)%nat ->
  (stop <= i \/ i < start)%nat ->
  slice (set_byte i v bytes) start stop = slice bytes start stop.
Proof.
  intros Hi Hout.
  apply nth_error_ext. intros n. unfold slice.
  rewrite !nth_error_firstn.
  destruct (Nat.ltb_spec n (stop - start)) as [Hn|Hn]; [|reflexivity].
  rewrite !nth_error_skipn.
  apply (get_set_byte_other i (start + n) v bytes Hi). lia.
Qed.

(** Both coordinate slices of a 22-byte frame hold eight bytes. *)
Lemma parseGPS_frame (bytes : list Z) :
  List.length bytes = 22%nat ->
  exists lngDM latDM,
    parseGPS (slice bytes 0 8) = Normal lngDM
    /\ parseGPS (slice bytes 9 17) = Normal latDM.
Proof.
  intros Hlen.
  destruct (parseGPS_eight (slice bytes 0 8)) as [lngDM Hlng];
    [rewrite slice_length; lia|].
  destruct (parseGPS_eight (slice bytes 9 17)) as [latDM Hlat];
    [rewrite slice_length; lia|].
  exists lngDM, latDM. split; assumption.
Qed.

(** A 22-byte frame decodes to a GPS record; each coordinate is negated
    exactly when its hemisphere byte is the S or W marker. *)
Lemma decodeUplink_gps (now : Date) (input : Uplink.input) :
  let bytes := Uplink.bytes input in
  List.length bytes = 22%nat ->
  exists lngDM latDM,
    parseGPS (slice bytes 0 8) = Normal lngDM
    /\ parseGPS (slice bytes 9 17) = Normal latDM
    /\ decodeUplink now input
       = Normal {| Uplink.data := DataGPS
           {| GPS.data_type := "GPS";
              GPS.latitude :=
                if strict_eq (get bytes 17) 0x53
                then (- unsigned_degrees latDM)%float
                else unsigned_degrees latDM;
              GPS.longitude :=
                if strict_eq (get bytes 8) 0x57
                then (- unsigned_degrees lngDM)%float
                else unsigned_degrees lngDM |} |}.
Proof.
  intros bytes Hlen.
  destruct (parseGPS_frame bytes Hlen) as [lngDM [latDM [Hlng Hlat]]].
  exists lngDM, latDM.
  split; [exact Hlng|]. split; [exact Hlat|].
  rewrite decodeUplink_22 by exact Hlen. fold bytes.
  rewrite (decodeGPSData_cases bytes lngDM latDM Hlng Hlat). reflexivity.
Qed.

(** C10. A 22-byte frame always decodes to a GPS record; a coordinate is
    negated exactly when its hemisphere byte is S (latitude, index 17) or
    W (longitude, index 8); and a frame whose hemisphere byte is neither
    marker of its axis decodes as the same frame with E (or N) there. *)
Theorem decodeUplink_gps_hemisphere (now : Date) (input : Uplink.input) :
  let bytes := Uplink.bytes input in
  List.length bytes = 22%nat ->
  exists lngDM latDM,
    parseGPS (slice bytes 0 8) = Normal lngDM
    /\ parseGPS (slice bytes 9 17) = Normal latDM
    /\ decodeUplink now input
       = Normal {| Uplink.data := DataGPS
           {| GPS.data_type := "GPS";
              GPS.latitude :=
                if strict_eq (get bytes 17) 0x53
                then (- unsigned_degrees latDM)%float
                else unsigned_degrees latDM;
              GPS.longitude :=
                if strict_eq (get bytes 8) 0x57
                then (- unsigned_degrees lngDM)%float
                else unsigned_degrees lngDM |} |}
    /\ (get bytes 8 <> Some 0x45 -> get bytes 8 <> Some 0x57 ->
        decodeUplink now (with_bytes input (set_byte 8 0x45 bytes))
        = decodeUplink now input)
    /\ (get bytes 17 <> Some 0x4e -> get bytes 17 <> Some 0x53 ->
        decodeUplink now (with_bytes input (set_byte 17 0x4e bytes))
        = decodeUplink now input).
Proof.
  intros bytes Hlen.
  destruct (decodeUplink_gps now input Hlen)
    as [lngDM [latDM [Hlng [Hlat Hdec]]]].
  fold bytes in Hlng, Hlat, Hdec.
  exists lngDM, latDM.
  split; [exact Hlng|]. split; [exact Hlat|]. split; [exact Hdec|].
  split.
  - intros HE HW. rewrite Hdec.
    rewrite decodeUplink_22
      by (cbn [with_bytes Uplink.bytes]; rewrite set_byte_length; lia).
    cbn [with_bytes Uplink.bytes].
    rewrite (decodeGPSData_cases (set_byte 8 0x45 bytes) lngDM latDM)
      by (rewrite slice_set_byte by lia; assumption).
    rewrite get_set_byte_same, get_set_byte_other by lia.
    cbn [bind strict_eq].
    replace (strict_eq (get bytes 8) 0x57) with false; [reflexivity|].
    destruct (get bytes 8) as [b|]; cbn [strict_eq]; [|reflexivity].
    destruct (Z.eqb_spec b 0x57) as [->|_]; [exfalso; apply HW|]; reflexivity.
  - intros HN HS. rewrite Hdec.
    rewrite decodeUplink_22
      by (cbn [with_bytes Uplink.bytes]; rewrite set_byte_length; lia).
    cbn [with_bytes Uplink.bytes].
    rewrite (decodeGPSData_cases (set_byte 17 0x4e bytes) lngDM latDM)
      by (rewrite slice_set_byte by lia; assumption).
    rewrite get_set_byte_same, get_set_byte_other by lia.
    cbn [bind strict_eq].
    replace (strict_eq (get bytes 17) 0x53) with false; [reflexivity|].
    destruct (get bytes 17) as [b|]; cbn [strict_eq]; [|reflexivity].
    destruct (Z.eqb_spec b 0x53) as [->|_]; [exfalso; apply HS|]; reflexivity.
Qed.

(** The example frame evaluates to 22 degrees and 179 + 58/60 degrees. *)
Example decodeUplink_gps_example :
  decodeUplink (Some 0) {| Uplink.bytes := gps_example; Uplink.fPort := 1 |}
  = Normal {| Uplink.data := DataGPS
      {| GPS.data_type := "GPS";
         GPS.latitude := 22%float;
         GPS.longitude := (179 + 58 / 60)%float |} |}.
Proof. vm_compute. reflexivity. Qed.

Lemma decodeUplink_gps_hemisphere_witness :
  exists lngDM latDM,
    parseGPS (slice gps_example 0 8) = Normal lngDM
    /\ parseGPS (slice gps_example 9 17) = Normal latDM
    /\ decodeUplink (Some 0)
         {| Uplink.bytes := gps_example; Uplink.fPort := 1 |}
       = Normal {| Uplink.data := DataGPS
           {| GPS.data_type := "GPS";
              GPS.latitude := unsigned_degrees latDM;
              GPS.longitude := unsigned_degrees lngDM |} |}
    /\ decodeUplink (Some 0)
         {| Uplink.bytes := set_byte 17 0x4e gps_example; Uplink.fPort := 1 |}
       = decodeUplink (Some 0)
           {| Uplink.bytes := gps_example; Uplink.fPort := 1 |}.
Proof.
  destruct (decodeUplink_gps_hemisphere
              (Some 0) {| Uplink.bytes := gps_example; Uplink.fPort := 1 |}
              eq_refl)
    as [lngDM [latDM [Hlng [Hlat [Hdec [_ Hsame]]]]]].
  exists lngDM, latDM.
  split; [exact Hlng|]. split; [exact Hlat|]. split; [exact Hdec|].
  apply Hsame; discriminate.
Defined.

(** ** Vitals frames *)

Lemma vitals_integer_args_width (bytes : list Z) :
  List.length bytes = 49%nat ->
  Forall (fun s => List.length s = 2%nat) (vitals_integer_args bytes).
Proof.
  intros Hlen. unfold vitals_integer_args.
  repeat constructor; rewrite toBigEndian_length, slice_length; lia.
Qed.

Lemma gps_double_args_width (bytes : list Z) :
  List.length bytes = 22%nat ->
  Forall (fun s => List.length s = 8%nat) (gps_double_args bytes).
Proof.
  intros Hlen. unfold gps_double_args.
  repeat constructor; rewrite slice_length; lia.
Qed.

Ltac le16 bytes start stop :=
  rewrite (byteArrayToInteger_slice_le16 bytes start stop)
    by (assumption || reflexivity || lia).

(** Every multi-byte field of a Vitals frame is the little-endian 16-bit
    value at its offset, and the decoder returns. *)
Lemma decodeVitalsData_le16 (now : Date) (bytes : list Z) :
  Forall is_byte bytes ->
  List.length bytes = 49%nat ->
  exists r,
    decodeVitalsData now bytes = Normal r
    /\ Vitals.rri r = nth 3 bytes 0 + 256 * nth 4 bytes 0
    /\ Vitals.calories r = nth 8 bytes 0 + 256 * nth 9 bytes 0
    /\ Vitals.steps_today r = nth 12 bytes 0 + 256 * nth 13 bytes 0
    /\ Vitals.beacon_id1 r = nth 20 bytes 0 + 256 * nth 21 bytes 0
    /\ Vitals.beacon_id2 r = nth 23 bytes 0 + 256 * nth 24 bytes 0
    /\ Vitals.beacon_id3 r = nth 26 bytes 0 + 256 * nth 27 bytes 0
    /\ Vitals.surface_temperature r
       = PrimFloat.mul (Number_of_Z (nth 10 bytes 0 + 256 * nth 11 bytes 0))
                       one_hundredth
    /\ Vitals.body_temperature r
       = PrimFloat.mul (Number_of_Z (nth 14 bytes 0 + 256 * nth 15 bytes 0))
                       one_hundredth.
Proof.
  intros Hb Hlen. unfold decodeVitalsData.
  le16 bytes 3%nat 5%nat. le16 bytes 8%nat 10%nat.
  le16 bytes 10%nat 12%nat. le16 bytes 12%nat 14%nat.
  le16 bytes 14%nat 16%nat. le16 bytes 20%nat 22%nat.
  le16 bytes 23%nat 25%nat. le16 bytes 26%nat 28%nat.
  cbn [bind]. eexists. split; [reflexivity|].
  cbn [Vitals.rri Vitals.calories Vitals.steps_today Vitals.beacon_id1
       Vitals.beacon_id2 Vitals.beacon_id3 Vitals.surface_temperature
       Vitals.body_temperature].
  repeat split; reflexivity.
Qed.

(** C6. A frame of 9, 22 or 49 bytes decodes to a record and the call does
    not throw: in a Vitals frame every array handed to [byteArrayToInteger]
    has a supported width, and in a GPS frame every array handed to
    [byteArrayToDouble] is non-empty (and fits the 8-byte buffer). *)
Theorem decodeUplink_returns_record (now : Date) (input : Uplink.input) :
  let bytes := Uplink.bytes input in
  Forall is_byte bytes ->
  In (List.length bytes) [9; 22; 49]%nat ->
  (exists d, decodeUplink now input = Normal {| Uplink.data := d |}
             /\ is_record d)
  /\ (List.length bytes = 49%nat ->
      Forall (fun s => In (List.length s) [1; 2; 4]%nat
                       /\ returns (byteArrayToInteger s))
             (vitals_integer_args bytes))
  /\ (List.length bytes = 22%nat ->
      Forall (fun s => List.length s <> 0%nat
                       /\ returns (byteArrayToDouble s))
             (gps_double_args bytes)).
Proof.
  intros bytes Hb Hlen. split; [|split].
  - destruct Hlen as [H|[H|[H|[]]]]; symmetry in H.
    + rewrite decodeUplink_9 by exact H. eexists. split; [reflexivity|exact I].
    + destruct (decodeUplink_gps now input H)
        as [lngDM [latDM [_ [_ Hdec]]]].
      rewrite Hdec. eexists. split; [reflexivity|exact I].
    + rewrite decodeUplink_49 by exact H.
      destruct (decodeVitalsData_le16 now bytes Hb H) as [r [Hr _]].
      fold bytes. rewrite Hr. cbn [bind].
      eexists. split; [reflexivity|exact I].
  - intros H49.
    eapply Forall_impl; [|apply vitals_integer_args_width; exact H49].
    intros s Hs. cbv beta in Hs. split.
    + rewrite Hs. simpl. tauto.
    + apply byteArrayToInteger_returns. rewrite Hs. simpl. tauto.
  - intros H22.
    eapply Forall_impl; [|apply gps_double_args_width; exact H22].
    intros s Hs. cbv beta in Hs. split.
    + rewrite Hs. discriminate.
    + unfold returns. rewrite byteArrayToDouble_eight by exact Hs.
      eexists. reflexivity.
Qed.

Lemma decodeUplink_returns_record_witness :
  exists d,
    decodeUplink (Some 0) {| Uplink.bytes := sos_example; Uplink.fPort := 1 |}
    = Normal {| Uplink.data := d |}
    /\ is_record d.
Proof.
  apply (decodeUplink_returns_record
           (Some 0) {| Uplink.bytes := sos_example; Uplink.fPort := 1 |}).
  - repeat constructor; unfold is_byte; lia.
  - simpl. tauto.
Defined.

(* ================================================================== *)
(** * The downlink encoder                                             *)
(* ================================================================== *)

Lemma stringToBytes_string (s : string) :
  stringToBytes (VString s) = ascii_bytes s.
Proof. reflexivity. Qed.

(** A boolean has no [length]: it contributes no byte. *)
Lemma stringToBytes_bool (b : bool) : stringToBytes (VBool b) = [].
Proof. reflexivity. Qed.

Lemma flatten_app (arrays : list item) (acc : list Z) :
  fold_left
    (fun flatArray it =>
       match it with
       | Arr a => flatArray ++ a
       | Num n => flatArray ++ [n]
       end)
    arrays acc
  = acc ++ flatten arrays.
Proof.
  unfold flatten. revert acc.
  induction arrays as [|it arrays IH]; intros acc; cbn [fold_left].
  - rewrite app_nil_r. reflexivity.
  - destruct it as [a|n].
    + rewrite (IH (acc ++ a)), (IH ([] ++ a)). cbn [app].
      rewrite app_assoc. reflexivity.
    + rewrite (IH (acc ++ [n])), (IH ([] ++ [n])). cbn [app].
      rewrite <- app_assoc. reflexivity.
Qed.

Lemma flatten_Arr (a : list Z) (arrays : list item) :
  flatten (Arr a :: arrays) = a ++ flatten arrays.
Proof. unfold flatten at 1. cbn [fold_left]. apply flatten_app. Qed.

Lemma flatten_Num (n : Z) (arrays : list item) :
  flatten (Num n :: arrays) = n :: flatten arrays.
Proof. unfold flatten at 1. cbn [fold_left]. apply flatten_app. Qed.

Lemma getUplinkIntervalCode_invalid (interval : Z) :
  ~ In interval valid_intervals ->
  getUplinkIntervalCode interval = Throw (Error "Invalid uplink interval.").
Proof.
  intros H. unfold getUplinkIntervalCode, intervalMap. cbn [lookup].
  repeat match goal with
  | |- context [?k =? interval] =>
      destruct (Z.eqb_spec k interval) as [E|_];
        [exfalso; apply H; rewrite <- E; simpl; tauto|]
  end.
  reflexivity.
Qed.

Lemma getUplinkIntervalCode_valid (interval : Z) (c : ascii) :
  In (interval, c) spec_interval_codes ->
  getUplinkIntervalCode interval = Normal (charCode c).
Proof.
  intros H. simpl in H.
  repeat (destruct H as [H|H]; [injection H as <- <-; reflexivity|]).
  destruct H.
Qed.

(** The table covers exactly the listed intervals. *)
Lemma spec_interval_codes_domain :
  map fst spec_interval_codes = valid_intervals.
Proof. reflexivity. Qed.

(** C7. An UPLINK command with an interval outside 1, 5, 10, 15, 30, 60,
    120 makes [encodeDownlink] throw "Invalid uplink interval." (no result
    object at all); with both intervals in the table the frame is "UPLINK:",
    the code of the vitals interval, ",", the code of the GPS interval and
    CR LF, the codes being 1->'7', 5->'1', 10->'2', 15->'3', 30->'4',
    60->'5', 120->'6'. *)
Theorem encodeDownlink_uplink (input : Downlink.input) :
  let data := Downlink.data input in
  let vitals := Command.uplink_interval_vitals data in
  let gps := Command.uplink_interval_gps data in
  Command.data_type data = "UPLINK"%string ->
  (~ In vitals valid_intervals \/ ~ In gps valid_intervals ->
   encodeDownlink input = Throw (Error "Invalid uplink interval."))
  /\ (forall cv cg : ascii,
        In (vitals, cv) spec_interval_codes ->
        In (gps, cg) spec_interval_codes ->
        encodeDownlink input
        = Normal (Downlink.Bytes
            (ascii_bytes "UPLINK:" ++ ascii_bytes (String cv EmptyString)
             ++ ascii_bytes "," ++ ascii_bytes (String cg EmptyString)
             ++ [13; 10]))).
Proof.
  intros data vitals gps Htype. unfold encodeDownlink.
  fold data. rewrite Htype. cbn [String.eqb Ascii.eqb Bool.eqb].
  fold vitals gps. split.
  - intros [Hv|Hg].
    + rewrite (getUplinkIntervalCode_invalid vitals Hv). reflexivity.
    + destruct (getUplinkIntervalCode vitals) as [cv|e] eqn:Ev.
      * cbn [bind]. rewrite (getUplinkIntervalCode_invalid gps Hg).
        reflexivity.
      * destruct (in_dec Z.eq_dec vitals valid_intervals) as [Hin|Hout].
        -- rewrite <- spec_interval_codes_domain in Hin.
           apply in_map_iff in Hin. destruct Hin as [[k c] [Hk Hin]].
           cbn [fst] in Hk. subst k.
           rewrite (getUplinkIntervalCode_valid vitals c Hin) in Ev.
           discriminate Ev.
        -- rewrite (getUplinkIntervalCode_invalid vitals Hout) in Ev.
           injection Ev as <-. reflexivity.
  - intros cv cg Hv Hg.
    rewrite (getUplinkIntervalCode_valid vitals cv Hv).
    rewrite (getUplinkIntervalCode_valid gps cg Hg).
    reflexivity.
Qed.

Lemma encodeDownlink_uplink_witness :
  encodeDownlink (command "UPLINK" 7 60 "" false false 0)
  = Throw (Error "Invalid uplink interval.")
  /\ encodeDownlink (command "UPLINK" 5 60 "" false false 0)
     = Normal (Downlink.Bytes [85; 80; 76; 73; 78; 75; 58; 49; 44; 53; 13; 10]).
Proof.
  split.
  - apply (encodeDownlink_uplink (command "UPLINK" 7 60 "" false false 0)
             eq_refl).
    left. simpl. intros [H|[H|[H|[H|[H|[H|[H|[]]]]]]]]; discriminate H.
  - apply (proj2 (encodeDownlink_uplink
                    (command "UPLINK" 5 60 "" false false 0) eq_refl)
             "1"%char "5"%char); simpl; tauto.
Defined.

(** C8. A command whose [data_type] is none of UPLINK, TIME, SCAN, ALERT is
    answered with the error list ["Invalid data type"] and no bytes; the
    call does not throw. *)
Theorem encodeDownlink_invalid_data_type (input : Downlink.input) :
  ~ In (Command.data_type (Downlink.data input))
       ["UPLINK"; "TIME"; "SCAN"; "ALERT"]%string ->
  encodeDownlink input = Normal (Downlink.Errors ["Invalid data type"%string]).
Proof.
  intros H. unfold encodeDownlink.
  set (data_type := Command.data_type (Downlink.data input)) in *.
  destruct (String.eqb_spec data_type "UPLINK") as [E|_];
    [exfalso; apply H; rewrite E; simpl; tauto|].
  destruct (String.eqb_spec data_type "TIME") as [E|_];
    [exfalso; apply H; rewrite E; simpl; tauto|].
  destruct (String.eqb_spec data_type "SCAN") as [E|_];
    [exfalso; apply H; rewrite E; simpl; tauto|].
  destruct (String.eqb_spec data_type "ALERT") as [E|_];
    [exfalso; apply H; rewrite E; simpl; tauto|].
  reflexivity.
Qed.

Lemma encodeDownlink_invalid_data_type_witness :
  encodeDownlink (command "REBOOT" 5 60 "" false false 0)
  = Normal (Downlink.Errors ["Invalid data type"%string]).
Proof.
  apply (encodeDownlink_invalid_data_type
           (command "REBOOT" 5 60 "" false false 0)).
  simpl. intros [H|[H|[H|[H|[]]]]]; discriminate H.
Defined.

(** C9. An ALERT command is encoded as "ALERT:", then '1' when
    [alert_sound] is true and '2' otherwise, then ",", "0" and CR LF; two
    ALERT commands that differ only in [alert_type] are encoded alike. *)
Theorem encodeDownlink_alert (input : Downlink.input) :
  let data := Downlink.data input in
  Command.data_type data = "ALERT"%string ->
  encodeDownlink input
  = Normal (Downlink.Bytes
      (ascii_bytes "ALERT:"
       ++ ascii_bytes (if Command.alert_sound data then "1" else "2")
       ++ ascii_bytes "," ++ ascii_bytes "0" ++ [13; 10]))
  /\ (forall other : Downlink.input,
        same_but_alert_type data (Downlink.data other) ->
        encodeDownlink other = encodeDownlink input).
Proof.
  intros data Htype.
  assert (Henc : forall i : Downlink.input,
    Command.data_type (Downlink.data i) = "ALERT"%string ->
    encodeDownlink i
    = Normal (Downlink.Bytes
        (ascii_bytes "ALERT:"
         ++ ascii_bytes
              (if Command.alert_sound (Downlink.data i) then "1" else "2")
         ++ ascii_bytes "," ++ ascii_bytes "0" ++ [13; 10]))).
  { intros i Hi. unfold encodeDownlink. rewrite Hi.
    cbn [String.eqb Ascii.eqb Bool.eqb].
    rewrite !flatten_Arr, !stringToBytes_string. reflexivity. }
  split.
  - apply Henc. exact Htype.
  - intros other [Ht [_ [_ [_ [_ Hsound]]]]].
    rewrite (Henc input Htype).
    rewrite (Henc other) by (rewrite <- Ht; exact Htype).
    fold data. rewrite <- Hsound. reflexivity.
Qed.

Lemma encodeDownlink_alert_witness :
  encodeDownlink (command "ALERT" 0 0 "" false true 3)
  = Normal (Downlink.Bytes [65; 76; 69; 82; 84; 58; 49; 44; 48; 13; 10])
  /\ encodeDownlink (command "ALERT" 0 0 "" false true 6)
     = encodeDownlink (command "ALERT" 0 0 "" false true 3).
Proof.
  destruct (encodeDownlink_alert (command "ALERT" 0 0 "" false true 3) eq_refl)
    as [Hbytes Hsame].
  split.
  - exact Hbytes.
  - apply Hsame. repeat split.
Defined.

(** C3 does not hold of the code: the scan flag is handed to
    [stringToBytes] as a boolean and adds no byte, so every SCAN command is
    encoded as "SCAN:" and CR LF, whatever the flag. *)
Theorem encodeDownlink_scan_drops_flag (input : Downlink.input) :
  Command.data_type (Downlink.data input) = "SCAN"%string ->
  encodeDownlink input
  = Normal (Downlink.Bytes (ascii_bytes "SCAN:" ++ [13; 10])).
Proof.
  intros Htype. unfold encodeDownlink. rewrite Htype.
  cbn [String.eqb Ascii.eqb Bool.eqb].
  rewrite !flatten_Arr, stringToBytes_bool, stringToBytes_string.
  reflexivity.
Qed.

Lemma encodeDownlink_scan_drops_flag_witness :
  encodeDownlink (command "SCAN" 0 0 "" true false 0)
  = Normal (Downlink.Bytes [83; 67; 65; 78; 58; 13; 10]).
Proof.
  apply (encodeDownlink_scan_drops_flag (command "SCAN" 0 0 "" true false 0)).
  reflexivity.
Defined.

(** The frame C3 expects for a true flag, "SCAN:true" and CR LF, is not what
    the encoder returns. *)
Lemma encodeDownlink_scan_true_not_text :
  encodeDownlink (command "SCAN" 0 0 "" true false 0)
  <> Normal (Downlink.Bytes (ascii_bytes "SCAN:true" ++ [13; 10])).
Proof.
  intros H. vm_compute in H. discriminate H.
Qed.

(* ================================================================== *)
(** * Further properties of the binary primitives                      *)
(* ================================================================== *)

(** A property of every byte follows from its check on 0..255. *)
Lemma byte_cases (P : Z -> bool) :
  forallb P (map Z.of_nat (seq 0 256)) = true ->
  forall b, is_byte b -> P b = true.
Proof.
  intros Hall b Hb.
  apply (proj1 (forallb_forall P _) Hall).
  apply in_map_iff. exists (Z.to_nat b). split.
  - apply Z2Nat.id. unfold is_byte in Hb. lia.
  - apply in_seq. unfold is_byte in Hb. lia.
Qed.

(** [toString(16)] padded to two places is the two-nibble rendering. *)
Lemma padStart_toString16_byte (b : Z) :
  is_byte b -> padStart (toString16 b) 2 "0"%char = hex2 b.
Proof.
  intros Hb. apply String.eqb_eq.
  apply (byte_cases
           (fun b => String.eqb (padStart (toString16 b) 2 "0"%char) (hex2 b)));
    [vm_compute; reflexivity | exact Hb].
Qed.

Lemma hex_value_hex_digit (d : Z) :
  0 <= d < 16 -> hex_value (hex_digit d) = d.
Proof.
  intros Hd.
  assert (H : (if d <? 16 then hex_value (hex_digit d) =? d else true) = true).
  { apply (byte_cases
             (fun d => if d <? 16 then hex_value (hex_digit d) =? d else true));
      [vm_compute; reflexivity | unfold is_byte; lia]. }
  destruct (Z.ltb_spec d 16); [apply Z.eqb_eq; exact H | lia].
Qed.

Lemma hex2_inj (x y : Z) :
  is_byte x -> is_byte y -> hex2 x = hex2 y -> x = y.
Proof.
  unfold is_byte, hex2. intros Hx Hy H. injection H as Hhi Hlo.
  apply (f_equal hex_value) in Hhi. apply (f_equal hex_value) in Hlo.
  rewrite !hex_value_hex_digit in Hhi
    by (split; [apply Z.div_pos | apply Z.div_lt_upper_bound]; lia).
  rewrite !hex_value_hex_digit in Hlo by (apply Z.mod_pos_bound; lia).
  rewrite (Z.div_mod x 16), (Z.div_mod y 16) by lia. congruence.
Qed.

(** The MAC text is the reversed bytes, each as two digits, with colons. *)
Lemma getDeviceMac_hex2 (macBytes : list Z) :
  getDeviceMac macBytes = join ":" (map hex2 (map ToUint8 (rev macBytes))).
Proof.
  unfold getDeviceMac. rewrite toBigEndian_rev. f_equal.
  apply map_ext_in. intros b Hb. apply padStart_toString16_byte.
  apply in_map_iff in Hb. destruct Hb as [x [<- _]]. apply ToUint8_is_byte.
Qed.

Lemma join_hex2_cons (x : Z) (y : Z) (rest : list Z) :
  join ":" (map hex2 (x :: y :: rest))
  = String (hex_digit (x / 16)) (String (hex_digit (x mod 16))
      (String ":"%char (join ":" (map hex2 (y :: rest))))).
Proof. reflexivity. Qed.

Lemma join_hex2_length (xs : list Z) :
  xs <> [] ->
  String.length (join ":" (map hex2 xs)) = (3 * List.length xs - 1)%nat.
Proof.
  induction xs as [|x [|y rest] IH]; intros Hne.
  - contradiction.
  - reflexivity.
  - rewrite join_hex2_cons. cbn [String.length].
    rewrite IH by discriminate. cbn [List.length]. lia.
Qed.

Lemma join_hex2_inj (xs : list Z) :
  forall ys,
    Forall is_byte xs -> Forall is_byte ys ->
    join ":" (map hex2 xs) = join ":" (map hex2 ys) -> xs = ys.
Proof.
  induction xs as [|x [|x' xs'] IH]; intros [|y [|y' ys']] Hxs Hys H;
    try reflexivity; try discriminate H.
  - f_equal. apply hex2_inj.
    + apply (Forall_inv Hxs).
    + apply (Forall_inv Hys).
    + exact H.
  - rewrite !join_hex2_cons in H. injection H as Hhi Hlo Hrest.
    f_equal.
    + apply hex2_inj;
        [apply (Forall_inv Hxs) | apply (Forall_inv Hys) | unfold hex2; congruence].
    + apply IH;
        [apply (Forall_inv_tail Hxs) | apply (Forall_inv_tail Hys) | exact Hrest].
Qed.

(** The MAC of [n >= 1] bytes is [3n - 1] characters long, whatever the
    values: six bytes give the 17 characters of "xx:xx:xx:xx:xx:xx". *)
Theorem getDeviceMac_length (macBytes : list Z) :
  macBytes <> [] ->
  String.length (getDeviceMac macBytes)
  = (3 * List.length macBytes - 1)%nat.
Proof.
  intros Hne. rewrite getDeviceMac_hex2, join_hex2_length.
  - rewrite length_map, length_rev. reflexivity.
  - intros E. apply Hne. apply (f_equal (@List.length Z)) in E.
    rewrite length_map, length_rev in E.
    destruct macBytes; [reflexivity | discriminate E].
Qed.

Lemma getDeviceMac_length_witness :
  String.length (getDeviceMac [0; 1; 2; 3; 4; 5]) = 17%nat.
Proof.
  apply (getDeviceMac_length [0; 1; 2; 3; 4; 5]). discriminate.
Defined.

(** Distinct byte sequences have distinct MAC texts. *)
Theorem getDeviceMac_inj (a b : list Z) :
  Forall is_byte a -> Forall is_byte b ->
  getDeviceMac a = getDeviceMac b -> a = b.
Proof.
  intros Ha Hb H. rewrite !getDeviceMac_hex2 in H.
  assert (Hra : Forall is_byte (rev a)) by (apply Forall_rev; exact Ha).
  assert (Hrb : Forall is_byte (rev b)) by (apply Forall_rev; exact Hb).
  rewrite !map_ToUint8_bytes in H by assumption.
  apply join_hex2_inj in H; [|assumption|assumption].
  apply (f_equal (@rev Z)) in H. rewrite !rev_involutive in H. exact H.
Qed.

Lemma getDeviceMac_inj_witness : [171; 205] = [171; 205].
Proof.
  apply (getDeviceMac_inj [171; 205] [171; 205]).
  - repeat constructor; unfold is_byte; lia.
  - repeat constructor; unfold is_byte; lia.
  - reflexivity.
Defined.

(** Reversing twice gives the array back, each element reduced to a byte. *)
Theorem toBigEndian_involutive (byteArray : list Z) :
  toBigEndian (toBigEndian byteArray) = map ToUint8 byteArray.
Proof.
  rewrite !toBigEndian_rev. rewrite <- map_rev, rev_involutive.
  rewrite map_map. apply map_ext. intros x.
  apply ToUint8_byte, ToUint8_is_byte.
Qed.

(** [byteArrayToInteger] returns exactly on arrays of 1, 2 or 4 elements;
    on every other array, the empty one included, it throws. *)
Theorem byteArrayToInteger_returns_iff (byteArray : list Z) :
  returns (byteArrayToInteger byteArray)
  <-> In (List.length byteArray) [1; 2; 4]%nat.
Proof.
  split.
  - intros [v Hv].
    destruct (in_dec Nat.eq_dec (List.length byteArray) [1; 2; 4]%nat)
      as [Hin|Hout]; [exact Hin|].
    destruct (byteArrayToInteger_throws byteArray Hout) as [msg Hmsg].
    rewrite Hmsg in Hv. discriminate Hv.
  - apply byteArrayToInteger_returns.
Qed.

Lemma byteArrayToInteger_one (b : Z) :
  byteArrayToInteger [b] = Normal (ToUint8 b).
Proof. reflexivity. Qed.

Lemma byteArrayToInteger_four (b0 b1 b2 b3 : Z) :
  byteArrayToInteger [b0; b1; b2; b3]
  = Normal (((ToUint8 b0 * 256 + ToUint8 b1) * 256 + ToUint8 b2) * 256
            + ToUint8 b3).
Proof. reflexivity. Qed.

(** The integer read from [n] elements is an unsigned [8n]-bit value, even
    when the elements are not bytes: the typed-array store reduces them. *)
Theorem byteArrayToInteger_range (byteArray : list Z) (v : Z) :
  byteArrayToInteger byteArray = Normal v ->
  0 <= v < 2 ^ (8 * Z.of_nat (List.length byteArray)).
Proof.
  intros Hv.
  destruct byteArray as [|b0 [|b1 [|b2 [|b3 [|b4 rest]]]]];
    try discriminate Hv.
  - rewrite byteArrayToInteger_one in Hv. injection Hv as <-.
    pose proof (ToUint8_is_byte b0). unfold is_byte in *.
    change (2 ^ (8 * Z.of_nat (List.length [b0]))) with 256. lia.
  - rewrite byteArrayToInteger_two in Hv. injection Hv as <-.
    pose proof (ToUint8_is_byte b0). pose proof (ToUint8_is_byte b1).
    unfold is_byte in *.
    change (2 ^ (8 * Z.of_nat (List.length [b0; b1]))) with 65536. lia.
  - rewrite byteArrayToInteger_four in Hv. injection Hv as <-.
    pose proof (ToUint8_is_byte b0). pose proof (ToUint8_is_byte b1).
    pose proof (ToUint8_is_byte b2). pose proof (ToUint8_is_byte b3).
    unfold is_byte in *.
    change (2 ^ (8 * Z.of_nat (List.length [b0; b1; b2; b3])))
      with 4294967296. lia.
Qed.

Lemma byteArrayToInteger_range_witness :
  0 <= 0xfffe < 2 ^ (8 * Z.of_nat (List.length [511; 254])).
Proof.
  apply (byteArrayToInteger_range [511; 254] 0xfffe). reflexivity.
Defined.

(** An array of 1 to 8 elements is read as a double after zero bytes are
    supplied for the missing high-order positions. *)
Theorem byteArrayToDouble_zero_padded (byteArray : list Z) :
  (1 <= List.length byteArray <= 8)%nat ->
  byteArrayToDouble byteArray
  = Normal (getFloat64_le
              (map ToUint8 byteArray
               ++ repeat 0 (8 - List.length byteArray)) 0).
Proof.
  intros Hlen. unfold byteArrayToDouble.
  destruct (Nat.eqb_spec (List.length byteArray) 0) as [E|_]; [lia|].
  rewrite forEach_setUint8_fits by (rewrite repeat_length; lia).
  cbn [bind firstn Nat.add app]. do 2 f_equal. f_equal.
  remember (List.length byteArray) as n eqn:En. clear En byteArray.
  do 9 (destruct n as [|n]; [reflexivity|]). lia.
Qed.

Lemma byteArrayToDouble_zero_padded_witness :
  byteArrayToDouble [0; 0; 0; 0; 0; 0; 0xf0]
  = Normal (getFloat64_le [0; 0; 0; 0; 0; 0; 0xf0; 0] 0).
Proof.
  apply (byteArrayToDouble_zero_padded [0; 0; 0; 0; 0; 0; 0xf0]).
  simpl. lia.
Defined.

(** More than 8 elements overrun the 8-byte buffer: the ninth store throws
    a RangeError, and no double is returned. *)
Theorem byteArrayToDouble_overflow (byteArray : list Z) :
  (8 < List.length byteArray)%nat ->
  exists msg, byteArrayToDouble byteArray = Throw (RangeError msg).
Proof.
  intros Hlen. unfold byteArrayToDouble.
  destruct (Nat.eqb_spec (List.length byteArray) 0) as [E|_]; [lia|].
  destruct (forEach_setUint8_overflow byteArray 0 (repeat 0 8))
    as [msg Hmsg].
  - rewrite repeat_length. lia.
  - rewrite repeat_length. lia.
  - exists msg. rewrite Hmsg. reflexivity.
Qed.

Lemma byteArrayToDouble_overflow_witness :
  exists msg,
    byteArrayToDouble [1; 2; 3; 4; 5; 6; 7; 8; 9] = Throw (RangeError msg).
Proof.
  apply (byteArrayToDouble_overflow [1; 2; 3; 4; 5; 6; 7; 8; 9]).
  simpl. lia.
Defined.

(* ================================================================== *)
(** * Further properties of the downlink encoder                       *)
(* ================================================================== *)

(** [flatten] concatenates, a bare number counting as a one-element array. *)
Theorem flatten_concat (arrays : list item) :
  flatten arrays = List.concat (map item_contents arrays).
Proof.
  induction arrays as [|[a|n] arrays IH]; cbn [map List.concat item_contents].
  - reflexivity.
  - rewrite flatten_Arr, IH. reflexivity.
  - rewrite flatten_Num, IH. reflexivity.
Qed.

(** An interval is in the table, with its code, or it is refused. *)
Lemma getUplinkIntervalCode_cases (interval : Z) :
  (exists c, In (interval, c) spec_interval_codes
             /\ getUplinkIntervalCode interval = Normal (charCode c))
  \/ (~ In interval valid_intervals
      /\ getUplinkIntervalCode interval
         = Throw (Error "Invalid uplink interval.")).
Proof.
  destruct (in_dec Z.eq_dec interval valid_intervals) as [Hin|Hout].
  - left. rewrite <- spec_interval_codes_domain in Hin.
    apply in_map_iff in Hin. destruct Hin as [[k c] [Hk Hin]].
    cbn [fst] in Hk. subst k. exists c. split; [exact Hin|].
    apply getUplinkIntervalCode_valid. exact Hin.
  - right. split; [exact Hout|].
    apply getUplinkIntervalCode_invalid. exact Hout.
Qed.

(** The interval code is one of the digits '1' to '7' and determines the
    interval: no two intervals share a code. *)
Theorem getUplinkIntervalCode_inj (i j code : Z) :
  getUplinkIntervalCode i = Normal code ->
  getUplinkIntervalCode j = Normal code ->
  i = j /\ 49 <= code <= 55.
Proof.
  intros Hi Hj.
  destruct (getUplinkIntervalCode_cases i) as [[ci [Hci Ei]]|[_ Ei]];
    [|rewrite Ei in Hi; discriminate Hi].
  destruct (getUplinkIntervalCode_cases j) as [[cj [Hcj Ej]]|[_ Ej]];
    [|rewrite Ej in Hj; discriminate Hj].
  rewrite Ei in Hi. rewrite Ej in Hj.
  injection Hi as <-. injection Hj as Hj.
  simpl in Hci, Hcj.
  repeat (destruct Hci as [Hci|Hci]; [injection Hci as <- <-|]);
    try contradiction;
    repeat (destruct Hcj as [Hcj|Hcj]; [injection Hcj as <- <-|]);
    try contradiction;
    try discriminate Hj; (split; [reflexivity | vm_compute; split; discriminate]).
Qed.

Lemma getUplinkIntervalCode_inj_witness : 60 = 60 /\ 49 <= 53 <= 55.
Proof.
  apply (getUplinkIntervalCode_inj 60 60 53); reflexivity.
Defined.

(** Every frame the encoder returns is the command name, a colon, a
    payload, and the terminator CR LF. *)
Theorem encodeDownlink_frame_shape (input : Downlink.input) (bytes : list Z) :
  encodeDownlink input = Normal (Downlink.Bytes bytes) ->
  exists payload,
    bytes
    = ascii_bytes (append (Command.data_type (Downlink.data input)) ":")
      ++ payload ++ [13; 10].
Proof.
  unfold encodeDownlink.
  destruct (String.eqb_spec (Command.data_type (Downlink.data input)) "UPLINK")
    as [->|_].
  { destruct (getUplinkIntervalCode _) as [cv|e]; [|discriminate].
    destruct (getUplinkIntervalCode _) as [cg|e]; [|discriminate].
    cbn [bind]. intros H. injection H as <-.
    exists [cv; 44; cg]. reflexivity. }
  destruct (String.eqb_spec (Command.data_type (Downlink.data input)) "TIME")
    as [->|_].
  { intros H. injection H as <-.
    exists (ascii_bytes (Command.time (Downlink.data input))).
    rewrite !flatten_Arr. reflexivity. }
  destruct (String.eqb_spec (Command.data_type (Downlink.data input)) "SCAN")
    as [->|_].
  { intros H. injection H as <-. exists []. reflexivity. }
  destruct (String.eqb_spec (Command.data_type (Downlink.data input)) "ALERT")
    as [->|_].
  { intros H. injection H as <-.
    exists (ascii_bytes
              (if Command.alert_sound (Downlink.data input) then "1" else "2")
            ++ [44; 48]).
    destruct (Command.alert_sound (Downlink.data input)); reflexivity. }
  intros H. discriminate H.
Qed.

Lemma encodeDownlink_frame_shape_witness :
  exists payload,
    [85; 80; 76; 73; 78; 75; 58; 49; 44; 53; 13; 10]
    = ascii_bytes "UPLINK:" ++ payload ++ [13; 10].
Proof.
  apply (encodeDownlink_frame_shape
           (command "UPLINK" 5 60 "" false false 0)).
  reflexivity.
Defined.

Lemma encodeDownlink_TIME (input : Downlink.input) :
  Command.data_type (Downlink.data input) = "TIME"%string ->
  encodeDownlink input
  = Normal (Downlink.Bytes
      (ascii_bytes "TIME:"
       ++ ascii_bytes (Command.time (Downlink.data input)) ++ [13; 10])).
Proof.
  intros Htype. unfold encodeDownlink. rewrite Htype.
  cbn [String.eqb Ascii.eqb Bool.eqb].
  rewrite !flatten_Arr, !stringToBytes_string. reflexivity.
Qed.

Lemma ascii_bytes_inj (s t : string) : ascii_bytes s = ascii_bytes t -> s = t.
Proof.
  unfold ascii_bytes. revert t.
  induction s as [|c s IH]; intros [|d t] H; cbn [list_ascii_of_string map] in H;
    try discriminate H.
  - reflexivity.
  - injection H as Hc Hrest. f_equal.
    + apply Nat2Z.inj in Hc.
      rewrite <- (ascii_nat_embedding c), <- (ascii_nat_embedding d), Hc.
      reflexivity.
    + apply IH. exact Hrest.
Qed.

(** The TIME frame carries the time text verbatim, so the frame determines
    the text: two TIME commands with the same frame have the same [time]. *)
Theorem encodeDownlink_time_inj (input1 input2 : Downlink.input) :
  Command.data_type (Downlink.data input1) = "TIME"%string ->
  Command.data_type (Downlink.data input2) = "TIME"%string ->
  encodeDownlink input1 = encodeDownlink input2 ->
  Command.time (Downlink.data input1) = Command.time (Downlink.data input2).
Proof.
  intros H1 H2 H.
  rewrite (encodeDownlink_TIME input1 H1), (encodeDownlink_TIME input2 H2) in H.
  injection H as H. apply app_inv_tail in H.
  apply ascii_bytes_inj. exact H.
Qed.

Lemma encodeDownlink_time_inj_witness :
  "2024-01-31-08-15-00"%string = "2024-01-31-08-15-00"%string.
Proof.
  apply (encodeDownlink_time_inj
           (command "TIME" 1 1 "2024-01-31-08-15-00" false false 0)
           (command "TIME" 5 5 "2024-01-31-08-15-00" true true 3));
    reflexivity.
Defined.

(* ================================================================== *)
(** * Further properties of the uplink decoder                         *)
(* ================================================================== *)

Ltac int16_returns bytes start stop :=
  let v := fresh "v" in
  let Hv := fresh "Hv" in
  destruct (byteArrayToInteger_returns (toBigEndian (slice bytes start stop)))
    as [v Hv];
  [ rewrite toBigEndian_length, slice_length by lia; simpl; tauto
  | rewrite Hv; cbn [bind] ].

(** A 49-element frame is decoded whatever its elements are. *)
Lemma decodeVitalsData_returns (now : Date) (bytes : list Z) :
  List.length bytes = 49%nat ->
  exists r, decodeVitalsData now bytes = Normal r.
Proof.
  intros Hlen. unfold decodeVitalsData.
  int16_returns bytes 3%nat 5%nat. int16_returns bytes 8%nat 10%nat.
  int16_returns bytes 10%nat 12%nat. int16_returns bytes 12%nat 14%nat.
  int16_returns bytes 14%nat 16%nat. int16_returns bytes 20%nat 22%nat.
  int16_returns bytes 23%nat 25%nat. int16_returns bytes 26%nat 28%nat.
  eexists. reflexivity.
Qed.

(** [decodeUplink] never throws, on a frame of any length holding any
    integers, and the kind of record it returns is fixed by the length
    alone: SOS for 9, GPS for 22, Vitals for 49, the length error
    otherwise. *)
Theorem decodeUplink_never_throws (now : Date) (input : Uplink.input) :
  let n := List.length (Uplink.bytes input) in
  exists d,
    decodeUplink now input = Normal {| Uplink.data := d |}
    /\ (n = 9%nat -> exists r, d = DataSOS r)
    /\ (n = 22%nat -> exists r, d = DataGPS r)
    /\ (n = 49%nat -> exists r, d = DataVitals r)
    /\ (~ In n [9; 22; 49]%nat -> d = DataError "Invalid payload length").
Proof.
  intros n.
  destruct (Nat.eq_dec n 9) as [H9|N9];
    [|destruct (Nat.eq_dec n 22) as [H22|N22];
      [|destruct (Nat.eq_dec n 49) as [H49|N49]]].
  - rewrite decodeUplink_9 by exact H9. eexists. split; [reflexivity|].
    repeat split; try (intros E; exfalso; lia).
    + intros _. eexists. reflexivity.
    + intros Hout. exfalso. apply Hout. rewrite H9. simpl. tauto.
  - destruct (decodeUplink_gps now input H22) as [lngDM [latDM [_ [_ Hdec]]]].
    rewrite Hdec. eexists. split; [reflexivity|].
    repeat split; try (intros E; exfalso; lia).
    + intros _. eexists. reflexivity.
    + intros Hout. exfalso. apply Hout. rewrite H22. simpl. tauto.
  - rewrite decodeUplink_49 by exact H49.
    destruct (decodeVitalsData_returns now (Uplink.bytes input) H49) as [r Hr].
    rewrite Hr. cbn [bind]. eexists. split; [reflexivity|].
    repeat split; try (intros E; exfalso; lia).
    + intros _. eexists. reflexivity.
    + intros Hout. exfalso. apply Hout. rewrite H49. simpl. tauto.
  - rewrite decodeUplink_other by assumption. eexists. split; [reflexivity|].
    repeat split; intros E; exfalso; lia.
Qed.

(** The last two bytes of an SOS frame are not read: any values there give
    the same record. *)
Theorem decodeUplink_sos_ignores_tail
  (now : Date) (input : Uplink.input) (i : nat) (v : Z) :
  let bytes := Uplink.bytes input in
  List.length bytes = 9%nat ->
  (7 <= i < 9)%nat ->
  decodeUplink now (with_bytes input (set_byte i v bytes))
  = decodeUplink now input.
Proof.
  intros bytes Hlen Hi.
  rewrite (decodeUplink_9 now input) by exact Hlen.
  rewrite decodeUplink_9
    by (cbn [with_bytes Uplink.bytes]; rewrite set_byte_length; lia).
  cbn [with_bytes Uplink.bytes]. fold bytes. unfold decodeSOSData.
  rewrite slice_set_byte, get_set_byte_other by lia.
  reflexivity.
Qed.

Lemma decodeUplink_sos_ignores_tail_witness :
  decodeUplink (Some 0)
    {| Uplink.bytes := set_byte 8 255 sos_example; Uplink.fPort := 1 |}
  = decodeUplink (Some 0)
      {| Uplink.bytes := sos_example; Uplink.fPort := 1 |}.
Proof.
  apply (decodeUplink_sos_ignores_tail
           (Some 0) {| Uplink.bytes := sos_example; Uplink.fPort := 1 |}
           8%nat 255).
  - reflexivity.
  - lia.
Defined.

(** The last four bytes of a GPS frame are not read. *)
Theorem decodeUplink_gps_ignores_tail
  (now : Date) (input : Uplink.input) (i : nat) (v : Z) :
  let bytes := Uplink.bytes input in
  List.length bytes = 22%nat ->
  (18 <= i < 22)%nat ->
  decodeUplink now (with_bytes input (set_byte i v bytes))
  = decodeUplink now input.
Proof.
  intros bytes Hlen Hi.
  rewrite (decodeUplink_22 now input) by exact Hlen.
  rewrite decodeUplink_22
    by (cbn [with_bytes Uplink.bytes]; rewrite set_byte_length; lia).
  cbn [with_bytes Uplink.bytes]. fold bytes. unfold decodeGPSData.
  rewrite !slice_set_byte, !get_set_byte_other by lia.
  reflexivity.
Qed.

Lemma decodeUplink_gps_ignores_tail_witness :
  decodeUplink (Some 0)
    {| Uplink.bytes := set_byte 20 7 gps_example; Uplink.fPort := 1 |}
  = decodeUplink (Some 0)
      {| Uplink.bytes := gps_example; Uplink.fPort := 1 |}.
Proof.
  apply (decodeUplink_gps_ignores_tail
           (Some 0) {| Uplink.bytes := gps_example; Uplink.fPort := 1 |}
           20%nat 7).
  - reflexivity.
  - lia.
Defined.

(** Bytes 39, 40, 47 and 48 of a Vitals frame (the two bytes before the MAC
    and the two stop marks after it) are not read. *)
Theorem decodeUplink_vitals_ignores
  (now : Date) (input : Uplink.input) (i : nat) (v : Z) :
  let bytes := Uplink.bytes input in
  List.length bytes = 49%nat ->
  In i [39; 40; 47; 48]%nat ->
  decodeUplink now (with_bytes input (set_byte i v bytes))
  = decodeUplink now input.
Proof.
  intros bytes Hlen Hi.
  rewrite (decodeUplink_49 now input) by exact Hlen.
  rewrite decodeUplink_49
    by (cbn [with_bytes Uplink.bytes]; rewrite set_byte_length;
        [exact Hlen | simpl in Hi; lia]).
  cbn [with_bytes Uplink.bytes]. fold bytes. unfold decodeVitalsData.
  simpl in Hi.
  rewrite !slice_set_byte, !get_set_byte_other by lia.
  reflexivity.
Qed.

Lemma decodeUplink_vitals_ignores_witness :
  decodeUplink (Some 0)
    {| Uplink.bytes := set_byte 48 10 (repeat 1 49); Uplink.fPort := 1 |}
  = decodeUplink (Some 0)
      {| Uplink.bytes := repeat 1 49; Uplink.fPort := 1 |}.
Proof.
  apply (decodeUplink_vitals_ignores
           (Some 0) {| Uplink.bytes := repeat 1 49; Uplink.fPort := 1 |}
           48%nat 10).
  - reflexivity.
  - simpl. tauto.
Defined.

(** In a 49-byte frame every two-byte field is the little-endian 16-bit
    value at its offset (low byte first), so each lies in 0..65535, and the
    two temperatures are that value times the double nearest to 0.01. *)
Theorem decodeUplink_vitals_fields (now : Date) (input : Uplink.input) :
  let bytes := Uplink.bytes input in
  let le16 := fun i : nat => nth i bytes 0 + 256 * nth (S i) bytes 0 in
  Forall is_byte bytes ->
  List.length bytes = 49%nat ->
  exists r,
    decodeUplink now input = Normal {| Uplink.data := DataVitals r |}
    /\ Vitals.rri r = le16 3%nat
    /\ Vitals.calories r = le16 8%nat
    /\ Vitals.steps_today r = le16 12%nat
    /\ Vitals.beacon_id1 r = le16 20%nat
    /\ Vitals.beacon_id2 r = le16 23%nat
    /\ Vitals.beacon_id3 r = le16 26%nat
    /\ Vitals.surface_temperature r
       = PrimFloat.mul (Number_of_Z (le16 10%nat)) one_hundredth
    /\ Vitals.body_temperature r
       = PrimFloat.mul (Number_of_Z (le16 14%nat)) one_hundredth
    /\ Forall (fun i => 0 <= le16 i < 65536) [3; 8; 10; 12; 14; 20; 23; 26]%nat.
Proof.
  intros bytes le16 Hb Hlen.
  destruct (decodeVitalsData_le16 now bytes Hb Hlen)
    as [r [Hr [H1 [H2 [H3 [H4 [H5 [H6 [H7 H8]]]]]]]]].
  exists r. rewrite decodeUplink_49 by exact Hlen. fold bytes.
  rewrite Hr. cbn [bind].
  repeat (split; [first [reflexivity | assumption]|]).
  assert (Hnth : forall i, is_byte (nth i bytes 0)).
  { intros i. destruct (Nat.lt_ge_cases i (List.length bytes)) as [Hi|Hi].
    - apply (proj1 (Forall_forall is_byte bytes) Hb). apply nth_In. exact Hi.
    - rewrite nth_overflow by exact Hi. unfold is_byte. lia. }
  repeat constructor; unfold le16;
    match goal with
    | |- _ <= nth ?i bytes 0 + 256 * nth ?j bytes 0 =>
        pose proof (Hnth i); pose proof (Hnth j); unfold is_byte in *; lia
    | |- nth ?i bytes 0 + 256 * nth ?j bytes 0 < _ =>
        pose proof (Hnth i); pose proof (Hnth j); unfold is_byte in *; lia
    end.
Qed.

Lemma decodeUplink_vitals_fields_witness :
  exists r,
    decodeUplink (Some 0)
      {| Uplink.bytes := map Z.of_nat (seq 0 49); Uplink.fPort := 1 |}
    = Normal {| Uplink.data := DataVitals r |}
    /\ Vitals.rri r = 3 + 256 * 4
    /\ Vitals.calories r = 8 + 256 * 9.
Proof.
  destruct (decodeUplink_vitals_fields
              (Some 0)
              {| Uplink.bytes := map Z.of_nat (seq 0 49); Uplink.fPort := 1 |})
    as [r [Hr [H1 [H2 _]]]].
  - apply Forall_forall. intros x Hx. apply in_map_iff in Hx.
    destruct Hx as [n [<- Hn]]. apply in_seq in Hn. unfold is_byte. lia.
  - reflexivity.
  - exists r. split; [exact Hr|]. split; [exact H1 | exact H2].
Defined.

(** ** Coordinates that are not finite *)

(** A bit pattern whose exponent field is all ones is an infinity or NaN. *)
Lemma float_of_bits_nonfinite (w : Z) :
  Z.land (Z.shiftr w 52) 2047 = 2047 ->
  float_of_bits w = nan \/ float_of_bits w = infinity
  \/ float_of_bits w = neg_infinity.
Proof.
  intros H. unfold float_of_bits. rewrite H. cbn [Z.eqb Pos.eqb].
  destruct (Z.land w (2 ^ 52 - 1) =? 0); [|left; reflexivity].
  destruct (Z.testbit w 63); [right; right | right; left]; reflexivity.
Qed.

(** The exponent field of a little-endian double lies in its last two
    bytes. *)
Lemma le_uint_exponent (b0 b1 b2 b3 b4 b5 b6 b7 : Z) :
  Forall is_byte [b0; b1; b2; b3; b4; b5; b6; b7] ->
  Z.land (Z.shiftr (le_uint [b0; b1; b2; b3; b4; b5; b6; b7]) 52) 2047
  = b6 / 16 + 16 * (b7 mod 128).
Proof.
  intros Hb.
  repeat match goal with
  | H : Forall _ (_ :: _) |- _ =>
      let Hx := fresh "Hx" in
      apply Forall_cons_iff in H; destruct H as [Hx H]; unfold is_byte in Hx
  end.
  change 2047 with (Z.ones 11). rewrite Z.land_ones by lia.
  rewrite Z.shiftr_div_pow2 by lia.
  cbn [le_uint].
  change (2 ^ 52) with 4503599627370496. change (2 ^ 11) with 2048.
  Z.div_mod_to_equations. lia.
Qed.

(** The decimal degrees computed from an infinity or NaN are NaN, with or
    without the final negation. *)
Lemma parseGPS_nonfinite (d : float) :
  d = nan \/ d = infinity \/ d = neg_infinity ->
  let degrees := Math_floor (d / 100)%float in
  let minutes := (d - degrees * 100)%float in
  (degrees + minutes / 60)%float = nan
  /\ (- (degrees + minutes / 60))%float = nan.
Proof.
  intros [ -> | [ -> | -> ] ]; vm_compute; split; reflexivity.
Qed.

Lemma Normal_inj {A : Type} (a b : A) : Normal a = Normal b -> a = b.
Proof. intros H. injection H as H. exact H. Qed.

(** A coordinate slice whose exponent bits are all ones parses to degrees
    and minutes whose decimal degrees are NaN. *)
Lemma parseGPS_slice_nonfinite (bytes : list Z) (start : nat) (dm : DM) :
  Forall is_byte bytes ->
  (start + 8 <= List.length bytes)%nat ->
  240 <= nth (start + 6) bytes 0 ->
  nth (start + 7) bytes 0 mod 128 = 127 ->
  parseGPS (slice bytes start (start + 8)) = Normal dm ->
  unsigned_degrees dm = nan /\ (- unsigned_degrees dm)%float = nan.
Proof.
  intros Hb Hlen H6 H7 Hdm.
  assert (Hs : Forall is_byte (slice bytes start (start + 8)))
    by (apply slice_Forall; exact Hb).
  assert (Hn6 : nth 6 (slice bytes start (start + 8)) 0
                = nth (start + 6) bytes 0).
  { unfold slice. rewrite nth_firstn, nth_skipn.
    destruct (Nat.ltb_spec 6 (start + 8 - start)); [reflexivity | lia]. }
  assert (Hn7 : nth 7 (slice bytes start (start + 8)) 0
                = nth (start + 7) bytes 0).
  { unfold slice. rewrite nth_firstn, nth_skipn.
    destruct (Nat.ltb_spec 7 (start + 8 - start)); [reflexivity | lia]. }
  assert (Hl : List.length (slice bytes start (start + 8)) = 8%nat)
    by (rewrite slice_length; lia).
  revert Hdm Hs Hn6 Hn7 Hl.
  generalize (slice bytes start (start + 8)). intros s Hdm Hs Hn6 Hn7 Hl.
  destruct s as [|b0 [|b1 [|b2 [|b3 [|b4 [|b5 [|b6 [|b7 [|b8 s]]]]]]]]];
    try discriminate Hl.
  cbn [nth] in Hn6, Hn7.
  unfold parseGPS in Hdm.
  rewrite byteArrayToDouble_eight in Hdm by reflexivity.
  rewrite map_ToUint8_bytes in Hdm by exact Hs.
  cbn [bind] in Hdm. apply Normal_inj in Hdm. rewrite <- Hdm.
  unfold unsigned_degrees. cbn [degrees minutes].
  unfold getFloat64_le.
  change (slice [b0; b1; b2; b3; b4; b5; b6; b7] 0 (0 + 8))
    with [b0; b1; b2; b3; b4; b5; b6; b7].
  assert (Hexp :
    Z.land (Z.shiftr (le_uint [b0; b1; b2; b3; b4; b5; b6; b7]) 52) 2047
    = 2047).
  { rewrite le_uint_exponent by exact Hs.
    rewrite Hn6, Hn7, H7.
    assert (Hb6 : is_byte b6).
    { apply (proj1 (Forall_forall is_byte _) Hs). simpl. tauto. }
    unfold is_byte in Hb6. rewrite Hn6 in Hb6.
    Z.div_mod_to_equations. lia. }
  apply parseGPS_nonfinite.
  apply float_of_bits_nonfinite. exact Hexp.
Qed.

(** A GPS frame whose longitude (or latitude) double is an infinity or a
    NaN, that is, whose exponent bits in bytes 6 and 7 (or 15 and 16) are
    all ones, is not refused: it decodes to a record whose longitude (or
    latitude) is NaN, whatever the hemisphere byte. *)
Theorem decodeUplink_gps_nonfinite (now : Date) (input : Uplink.input) :
  let bytes := Uplink.bytes input in
  Forall is_byte bytes ->
  List.length bytes = 22%nat ->
  exists r,
    decodeUplink now input = Normal {| Uplink.data := DataGPS r |}
    /\ (240 <= nth 6 bytes 0 -> nth 7 bytes 0 mod 128 = 127 ->
        GPS.longitude r = nan)
    /\ (240 <= nth 15 bytes 0 -> nth 16 bytes 0 mod 128 = 127 ->
        GPS.latitude r = nan).
Proof.
  intros bytes Hb Hlen.
  destruct (decodeUplink_gps now input Hlen)
    as [lngDM [latDM [Hlng [Hlat Hdec]]]].
  fold bytes in Hlng, Hlat, Hdec.
  rewrite Hdec. eexists. split; [reflexivity|].
  cbn [GPS.longitude GPS.latitude]. split.
  - intros H6 H7.
    destruct (parseGPS_slice_nonfinite bytes 0 lngDM Hb) as [Hu Hn];
      [lia | exact H6 | exact H7 | exact Hlng |].
    rewrite Hu. destruct (strict_eq (get bytes 8) 87); reflexivity.
  - intros H15 H16.
    destruct (parseGPS_slice_nonfinite bytes 9 latDM Hb) as [Hu Hn];
      [lia | exact H15 | exact H16 | exact Hlat |].
    rewrite Hu. destruct (strict_eq (get bytes 17) 83); reflexivity.
Qed.

Lemma decodeUplink_gps_nonfinite_witness :
  exists r,
    decodeUplink (Some 0)
      {| Uplink.bytes :=
           [ 0; 0; 0; 0; 0; 0; 0xf0; 0x7f; 0x57;
             0; 0; 0; 0; 0; 0x30; 0xa1; 0x40; 0x4e; 0; 0; 0; 0 ];
         Uplink.fPort := 1 |}
    = Normal {| Uplink.data := DataGPS r |}
    /\ GPS.longitude r = nan.
Proof.
  destruct (decodeUplink_gps_nonfinite
              (Some 0)
              {| Uplink.bytes :=
                   [ 0; 0; 0; 0; 0; 0; 0xf0; 0x7f; 0x57;
                     0; 0; 0; 0; 0; 0x30; 0xa1; 0x40; 0x4e; 0; 0; 0; 0 ];
                 Uplink.fPort := 1 |})
    as [r [Hr [Hlng _]]].
  - repeat constructor; unfold is_byte; lia.
  - reflexivity.
  - exists r. split; [exact Hr|]. apply Hlng.
    + simpl. lia.
    + reflexivity.
Defined.

(* ================================================================== *)
(** * The lookup tables                                                *)
(* ================================================================== *)

Lemma getLorawanRegion_outside (k : Z) :
  k < 0 \/ 6 < k -> getLorawanRegion (Some k) = "N/A"%string.
Proof.
  intros H. destruct k as [|p|p]; [lia | | reflexivity].
  do 3 (destruct p as [p|p|]; try reflexivity; try lia).
Qed.

Lemma getLorawanRegion_inside (k : Z) :
  0 <= k <= 6 -> getLorawanRegion (Some k) <> "N/A"%string.
Proof.
  intros H.
  assert (E : k = 0 \/ k = 1 \/ k = 2 \/ k = 3 \/ k = 4 \/ k = 5 \/ k = 6)
    by lia.
  repeat (destruct E as [-> | E]; [discriminate|]). subst k. discriminate.
Qed.

(** The region label is "N/A" exactly for a code outside 0..6 (or a missing
    byte), and the seven codes 0..6 have seven different labels, so a label
    other than "N/A" identifies its code. *)
Theorem getLorawanRegion_labels :
  (forall code,
      getLorawanRegion code = "N/A"%string
      <-> (forall k, code = Some k -> k < 0 \/ 6 < k))
  /\ (forall a b,
        getLorawanRegion (Some a) = getLorawanRegion (Some b) ->
        getLorawanRegion (Some a) <> "N/A"%string ->
        a = b).
Proof.
  split.
  - intros [k|]; split.
    + intros H k' E. injection E as <-.
      destruct (Z_lt_le_dec k 0) as [Hlt|Hge]; [left; exact Hlt|].
      destruct (Z_lt_le_dec 6 k) as [Hgt|Hle]; [right; exact Hgt|].
      exfalso. apply (getLorawanRegion_inside k); [lia | exact H].
    + intros H. apply getLorawanRegion_outside. apply H. reflexivity.
    + intros _ k E. discriminate E.
    + intros _. reflexivity.
  - intros a b Hab Ha.
    assert (Hb : getLorawanRegion (Some b) <> "N/A"%string)
      by (rewrite <- Hab; exact Ha).
    assert (Ra : 0 <= a <= 6).
    { destruct (Z_lt_le_dec a 0) as [H|H];
        [exfalso; apply Ha, getLorawanRegion_outside; lia|].
      destruct (Z_lt_le_dec 6 a) as [H'|H'];
        [exfalso; apply Ha, getLorawanRegion_outside; lia|]. lia. }
    assert (Rb : 0 <= b <= 6).
    { destruct (Z_lt_le_dec b 0) as [H|H];
        [exfalso; apply Hb, getLorawanRegion_outside; lia|].
      destruct (Z_lt_le_dec 6 b) as [H'|H'];
        [exfalso; apply Hb, getLorawanRegion_outside; lia|]. lia. }
    assert (Ea : a = 0 \/ a = 1 \/ a = 2 \/ a = 3 \/ a = 4 \/ a = 5 \/ a = 6)
      by lia.
    assert (Eb : b = 0 \/ b = 1 \/ b = 2 \/ b = 3 \/ b = 4 \/ b = 5 \/ b = 6)
      by lia.
    clear Ha Hb Ra Rb.
    repeat (destruct Ea as [-> | Ea]);
      repeat (destruct Eb as [-> | Eb]);
      subst; first [reflexivity | discriminate Hab].
Qed.

(** Alarm codes 1 and 3 both read "SOS" and are the only ones that do;
    code 2 alone reads "FIRE"; every other code, and a missing byte, reads
    "N/A".  The code of an SOS alarm cannot be told from the label. *)
Theorem getAlarmType_labels (code : option Z) :
  (getAlarmType code = "SOS"%string <-> code = Some 1 \/ code = Some 3)
  /\ (getAlarmType code = "FIRE"%string <-> code = Some 2)
  /\ (getAlarmType code = "N/A"%string
      <-> code <> Some 1 /\ code <> Some 2 /\ code <> Some 3).
Proof.
  destruct code as [z|];
    [destruct z as [|p|p];
      [|destruct p as [p|p|]; [destruct p as [p|p|] | destruct p as [p|p|] |]|]|];
    cbn [getAlarmType]; intuition (discriminate || congruence).
Qed.

(** The broadcast mode depends on the two low bits of the code only. *)
Theorem getFirmwareBroadcastMode_low_bits (code : Z) :
  getFirmwareBroadcastMode code = getFirmwareBroadcastMode (code mod 4).
Proof.
  unfold getFirmwareBroadcastMode.
  change 4 with (2 ^ 2). rewrite <- Z.land_ones by lia.
  rewrite <- !Z.land_assoc.
  change (Z.land (Z.ones 2) 1) with 1. change (Z.land (Z.ones 2) 2) with 2.
  reflexivity.
Qed.

(* ================================================================== *)
(** * Whole-minute coordinates                                         *)
(* ================================================================== *)

(** A property of every [n < bound] follows from its check on the list. *)
Lemma range_cases (bound : nat) (P : Z -> bool) :
  forallb P (map Z.of_nat (seq 0 bound)) = true ->
  forall z, 0 <= z < Z.of_nat bound -> P z = true.
Proof.
  intros Hall z Hz.
  apply (proj1 (forallb_forall P _) Hall).
  apply in_map_iff. exists (Z.to_nat z). split.
  - apply Z2Nat.id. lia.
  - apply in_seq. lia.
Qed.

Lemma splits_exactly_all (D M : Z) :
  0 <= D <= 180 -> 0 <= M < 60 -> splits_exactly D M = true.
Proof.
  intros HD HM.
  assert (Hall : forallb
            (fun D => forallb (splits_exactly D) (map Z.of_nat (seq 0 60)))
            (map Z.of_nat (seq 0 181)) = true)
    by (vm_compute; reflexivity).
  pose proof (range_cases 181 _ Hall D ltac:(lia)) as HrowD.
  cbv beta in HrowD.
  apply (range_cases 60 _ HrowD M). lia.
Qed.

Lemma parseGPS_value (l : list Z) :
  List.length l = 8%nat ->
  parseGPS l
  = Normal
      {| degrees := Math_floor (getFloat64_le (map ToUint8 l) 0 / 100)%float;
         minutes :=
           (getFloat64_le (map ToUint8 l) 0
            - Math_floor (getFloat64_le (map ToUint8 l) 0 / 100) * 100)%float
      |}.
Proof.
  intros Hlen. unfold parseGPS.
  rewrite byteArrayToDouble_eight by exact Hlen. reflexivity.
Qed.

Lemma parseGPS_whole_minutes (l : list Z) (D M : Z) (dm : DM) :
  List.length l = 8%nat ->
  0 <= D <= 180 -> 0 <= M < 60 ->
  getFloat64_le (map ToUint8 l) 0 = Number_of_Z (100 * D + M) ->
  parseGPS l = Normal dm ->
  degrees dm = Number_of_Z D /\ minutes dm = Number_of_Z M.
Proof.
  intros Hlen HD HM Hval Hdm.
  rewrite parseGPS_value in Hdm by exact Hlen.
  apply Normal_inj in Hdm. rewrite <- Hdm. cbn [degrees minutes].
  rewrite Hval.
  pose proof (splits_exactly_all D M HD HM) as H.
  unfold splits_exactly in H. cbv zeta in H.
  apply andb_prop in H. destruct H as [H1 H2].
  apply FloatAxioms.Leibniz.eqb_spec in H1.
  apply FloatAxioms.Leibniz.eqb_spec in H2.
  split; [exact H1 | exact H2].
Qed.

(** When the double of a coordinate is a whole number of degrees (0..180)
    and minutes (0..59) packed as [100 * D + M], the frame decodes to
    exactly the double sum [D + M / 60], negated for W (or S): the division
    by 100, the floor and the subtraction lose nothing. *)
Theorem decodeUplink_gps_whole_minutes (now : Date) (input : Uplink.input) :
  let bytes := Uplink.bytes input in
  let value := fun D M : Z =>
    (Number_of_Z D + Number_of_Z M / 60)%float in
  List.length bytes = 22%nat ->
  exists r,
    decodeUplink now input = Normal {| Uplink.data := DataGPS r |}
    /\ (forall D M,
          0 <= D <= 180 -> 0 <= M < 60 ->
          getFloat64_le (map ToUint8 (slice bytes 0 8)) 0
          = Number_of_Z (100 * D + M) ->
          GPS.longitude r
          = if strict_eq (get bytes 8) 0x57
            then (- value D M)%float else value D M)
    /\ (forall D M,
          0 <= D <= 180 -> 0 <= M < 60 ->
          getFloat64_le (map ToUint8 (slice bytes 9 17)) 0
          = Number_of_Z (100 * D + M) ->
          GPS.latitude r
          = if strict_eq (get bytes 17) 0x53
            then (- value D M)%float else value D M).
Proof.
  intros bytes value Hlen.
  destruct (decodeUplink_gps now input Hlen)
    as [lngDM [latDM [Hlng [Hlat Hdec]]]].
  fold bytes in Hlng, Hlat, Hdec.
  rewrite Hdec. eexists. split; [reflexivity|].
  cbn [GPS.longitude GPS.latitude]. unfold unsigned_degrees, value. split.
  - intros D M HD HM Hval.
    destruct (parseGPS_whole_minutes (slice bytes 0 8) D M lngDM)
      as [-> ->]; try assumption; [rewrite slice_length; lia | reflexivity].
  - intros D M HD HM Hval.
    destruct (parseGPS_whole_minutes (slice bytes 9 17) D M latDM)
      as [-> ->]; try assumption; [rewrite slice_length; lia | reflexivity].
Qed.

Lemma decodeUplink_gps_whole_minutes_witness :
  exists r,
    decodeUplink (Some 0) {| Uplink.bytes := gps_example; Uplink.fPort := 1 |}
    = Normal {| Uplink.data := DataGPS r |}
    /\ GPS.longitude r = (Number_of_Z 179 + Number_of_Z 58 / 60)%float.
Proof.
  destruct (decodeUplink_gps_whole_minutes
              (Some 0) {| Uplink.bytes := gps_example; Uplink.fPort := 1 |}
              eq_refl)
    as [r [Hr [Hlng _]]].
  exists r. split; [exact Hr|].
  apply (Hlng 179 58); [lia | lia | vm_compute; reflexivity].
Defined.

(* ================================================================== *)
(** * The GPS round trip                                               *)
(* ================================================================== *)

(** The decoder computes in binary64.  Each of its operations, and each of
    the packer's, is followed on the real values of its operands: below
    [2 ^ 15] in magnitude an operation is off by at most [eps], and a whole
    number that the exact result reaches is reached by the rounded one. *)

(** ** Powers of two *)

Lemma bpow_gt_0 (e : Z) : (0 < bpow e)%R.
Proof. unfold bpow. apply powerRZ_lt. lra. Qed.

Lemma bpow_add (a b : Z) : bpow (a + b) = (bpow a * bpow b)%R.
Proof. unfold bpow. apply powerRZ_add. lra. Qed.

Lemma bpow_0 : bpow 0 = 1%R.
Proof. reflexivity. Qed.

Lemma bpow_IZR (e : Z) : 0 <= e -> bpow e = IZR (2 ^ e).
Proof.
  intros He. unfold bpow.
  rewrite <- (Z2Nat.id e) by exact He.
  rewrite <- pow_powerRZ. rewrite <- pow_IZR. reflexivity.
Qed.

Lemma bpow_le (a b : Z) : a <= b -> (bpow a <= bpow b)%R.
Proof.
  intros H. replace b with (a + (b - a)) by lia. rewrite bpow_add.
  rewrite (bpow_IZR (b - a)) by lia.
  assert (1 <= 2 ^ (b - a)) by (pose proof (Z.pow_pos_nonneg 2 (b - a)); lia).
  apply IZR_le in H0. pose proof (bpow_gt_0 a). nra.
Qed.

Lemma bpow_lt (a b : Z) : a < b -> (bpow a < bpow b)%R.
Proof.
  intros H. replace b with (a + (b - a)) by lia. rewrite bpow_add.
  rewrite (bpow_IZR (b - a)) by lia.
  assert (2 <= 2 ^ (b - a)).
  { replace (b - a) with (1 + (b - a - 1)) by lia. rewrite Z.pow_add_r by lia.
    pose proof (Z.pow_pos_nonneg 2 (b - a - 1)). lia. }
  apply IZR_le in H0. pose proof (bpow_gt_0 a). nra.
Qed.

Lemma bpow_lt_inv (a b : Z) : (bpow a < bpow b)%R -> a < b.
Proof.
  intros H. destruct (Z_lt_le_dec a b) as [Hlt|Hge]; [exact Hlt|].
  apply bpow_le in Hge. lra.
Qed.

Lemma F2R_shift (m e k : Z) : 0 <= k -> F2R (m * 2 ^ k) e = F2R m (e + k).
Proof.
  intros Hk. unfold F2R. rewrite bpow_add, (bpow_IZR k) by exact Hk.
  rewrite mult_IZR. ring.
Qed.

(** Dropping [k] low bits of a mantissa rounds the value down by less than
    one unit of the new exponent. *)
Lemma F2R_div (m e k : Z) :
  0 <= k ->
  (F2R (m / 2 ^ k) (e + k) <= F2R m e < F2R (m / 2 ^ k + 1) (e + k))%R.
Proof.
  intros Hk.
  rewrite <- !F2R_shift by exact Hk.
  unfold F2R. pose proof (bpow_gt_0 e) as Hb.
  assert (Hp : 0 < 2 ^ k) by (apply Z.pow_pos_nonneg; lia).
  pose proof (Z.div_mod m (2 ^ k) ltac:(lia)) as Hdm.
  pose proof (Z.mod_pos_bound m (2 ^ k) Hp) as Hmod.
  split.
  - apply Rmult_le_compat_r; [lra|]. apply IZR_le. nia.
  - apply Rmult_lt_compat_r; [lra|]. apply IZR_lt. nia.
Qed.

(** ** Mantissas: digits and shifts *)

Lemma digits2_pos_bounds (p : positive) :
  2 ^ (Z.pos (digits2_pos p) - 1) <= Z.pos p < 2 ^ Z.pos (digits2_pos p).
Proof.
  induction p as [p IH|p IH|]; cbn [digits2_pos].
  - rewrite Pos2Z.inj_succ.
    replace (Z.succ (Z.pos (digits2_pos p)) - 1)
      with (Z.succ (Z.pos (digits2_pos p) - 1)) by lia.
    rewrite !Z.pow_succ_r by lia. lia.
  - rewrite Pos2Z.inj_succ.
    replace (Z.succ (Z.pos (digits2_pos p)) - 1)
      with (Z.succ (Z.pos (digits2_pos p) - 1)) by lia.
    rewrite !Z.pow_succ_r by lia. lia.
  - simpl. lia.
Qed.

Lemma Zdigits2_bounds (m : Z) :
  0 < m -> 2 ^ (Zdigits2 m - 1) <= m < 2 ^ Zdigits2 m.
Proof.
  intros Hm. destruct m as [|p|p]; try lia. apply digits2_pos_bounds.
Qed.

Lemma Zdigits2_nonneg (m : Z) : 0 <= m -> 0 <= Zdigits2 m.
Proof. intros Hm. destruct m; simpl; lia. Qed.

(** A mantissa below [2 ^ B] in value has at most [B - e] digits. *)
Lemma Zdigits2_F2R (m e B : Z) :
  0 < m -> (F2R m e < bpow B)%R -> Zdigits2 m + e <= B.
Proof.
  intros Hm Hlt.
  pose proof (Zdigits2_bounds m Hm) as [Hlo _].
  assert (Hd : 0 <= Zdigits2 m - 1).
  { destruct m as [|p|p]; [lia | cbn [Zdigits2]; lia | lia]. }
  assert (H : (bpow (Zdigits2 m - 1 + e) < bpow B)%R).
  { eapply Rle_lt_trans; [|exact Hlt].
    rewrite bpow_add, (bpow_IZR (Zdigits2 m - 1)) by exact Hd.
    unfold F2R. apply Rmult_le_compat_r; [pose proof (bpow_gt_0 e); lra|].
    apply IZR_le. exact Hlo. }
  apply bpow_lt_inv in H. lia.
Qed.

Lemma shr_1_m (mrs : shr_record) :
  0 <= shr_m mrs -> shr_m (shr_1 mrs) = shr_m mrs / 2.
Proof.
  destruct mrs as [m r s]. cbn [shr_m]. intros Hm.
  destruct m as [|[p|p|]|p]; cbn [shr_1 shr_m].
  - reflexivity.
  - rewrite Pos2Z.inj_xI. apply Z.div_unique with 1; lia.
  - rewrite Pos2Z.inj_xO. apply Z.div_unique with 0; lia.
  - reflexivity.
  - lia.
Qed.

Lemma iter_pos_shr_1_m (n : positive) :
  forall mrs, 0 <= shr_m mrs ->
    shr_m (SpecFloat.iter_pos shr_1 n mrs) = shr_m mrs / 2 ^ Z.pos n.
Proof.
  assert (Hnn : forall m k, 0 <= m -> 0 <= k -> 0 <= m / 2 ^ k).
  { intros m k Hm Hk. apply Z.div_pos; [exact Hm|].
    apply Z.pow_pos_nonneg; lia. }
  induction n as [n IH|n IH|]; intros mrs Hm; cbn [SpecFloat.iter_pos].
  - rewrite IH, IH, shr_1_m by
      (rewrite ?IH, ?shr_1_m by (rewrite ?shr_1_m by exact Hm;
                                  try apply Z.div_pos; lia);
       try apply Hnn; try apply Z.div_pos; lia).
    rewrite !Z.div_div by (try apply Z.pow_pos_nonneg; lia).
    replace (Z.pos n~1) with (1 + Z.pos n + Z.pos n) by lia.
    rewrite !Z.pow_add_r by lia. f_equal. change (2 ^ 1) with 2. ring.
  - rewrite IH, IH by (rewrite ?IH by exact Hm; try apply Hnn; lia).
    rewrite !Z.div_div by (try apply Z.pow_pos_nonneg; lia).
    replace (Z.pos n~0) with (Z.pos n + Z.pos n) by lia.
    rewrite !Z.pow_add_r by lia. reflexivity.
  - rewrite shr_1_m by exact Hm. reflexivity.
Qed.

Lemma shr_record_of_loc_m (m : Z) (l : location) :
  shr_m (shr_record_of_loc m l) = m.
Proof. destruct l as [|[| |]]; reflexivity. Qed.

(** The first component of [shr] is the mantissa with [n] bits dropped. *)
Lemma shr_spec (mrs : shr_record) (e n : Z) :
  0 <= shr_m mrs ->
  let k := Z.max 0 n in
  shr_m (fst (shr mrs e n)) = shr_m mrs / 2 ^ k
  /\ snd (shr mrs e n) = e + k.
Proof.
  intros Hm k. unfold shr, k. destruct n as [|p|p].
  - cbn [fst snd]. rewrite Z.max_id. simpl. rewrite Z.div_1_r. split; lia.
  - cbn [fst snd]. rewrite Z.max_r by lia.
    rewrite iter_pos_shr_1_m by exact Hm. split; reflexivity.
  - cbn [fst snd]. rewrite Z.max_l by lia. simpl. rewrite Z.div_1_r.
    split; lia.
Qed.

(** ** Rounding *)

Lemma fexp64_eq (e : Z) : fexp64 e = Z.max (e - 53) (-1074).
Proof. reflexivity. Qed.

Lemma F2R_0 (e : Z) : F2R 0 e = 0%R.
Proof. unfold F2R. ring. Qed.

Lemma F2R_succ (m e : Z) : F2R (m + 1) e = (F2R m e + bpow e)%R.
Proof. unfold F2R. rewrite plus_IZR. ring. Qed.

Lemma F2R_le (m1 m2 e : Z) : m1 <= m2 -> (F2R m1 e <= F2R m2 e)%R.
Proof.
  intros H. unfold F2R. apply Rmult_le_compat_r.
  - pose proof (bpow_gt_0 e). lra.
  - apply IZR_le. exact H.
Qed.

Lemma F2R_lt_inv (m1 m2 e : Z) : (F2R m1 e < F2R m2 e)%R -> m1 < m2.
Proof.
  intros H. destruct (Z_lt_le_dec m1 m2) as [Hlt|Hge]; [exact Hlt|].
  apply (F2R_le _ _ e) in Hge. lra.
Qed.

Lemma F2R_nonneg (m e : Z) : 0 <= m -> (0 <= F2R m e)%R.
Proof. intros H. rewrite <- (F2R_0 e). apply F2R_le. exact H. Qed.

Lemma F2R_opp (m e : Z) : F2R (- m) e = (- F2R m e)%R.
Proof. unfold F2R. rewrite opp_IZR. ring. Qed.

(** An integer is a mantissa at every exponent below zero. *)
Lemma IZR_F2R (n e : Z) : e <= 0 -> IZR n = F2R (n * 2 ^ (- e)) e.
Proof.
  intros He. rewrite F2R_shift by lia. replace (e + - e) with 0 by lia.
  unfold F2R. rewrite bpow_0. ring.
Qed.

Lemma shr_fexp_spec (m e : Z) (l : location) :
  0 <= m ->
  let e' := Z.max e (fexp64 (Zdigits2 m + e)) in
  shr_m (fst (shr_fexp prec emax m e l)) = m / 2 ^ (e' - e)
  /\ snd (shr_fexp prec emax m e l) = e'.
Proof.
  intros Hm e'. unfold shr_fexp.
  pose proof (shr_spec (shr_record_of_loc m l) e
                (fexp64 (Zdigits2 m + e) - e)) as H.
  rewrite shr_record_of_loc_m in H. specialize (H Hm). cbv zeta in H.
  destruct H as [H1 H2]. rewrite H1, H2. unfold e'.
  split; [f_equal; f_equal; lia | lia].
Qed.

Lemma round_nearest_even_cases (m : Z) (l : location) :
  round_nearest_even m l = m \/ round_nearest_even m l = m + 1.
Proof.
  destruct l as [|[| |]]; cbn [round_nearest_even]; auto.
  destruct (Z.even m); auto.
Qed.

Lemma fexp64_small (d B G : Z) :
  d <= B -> B - 53 <= G -> -1074 <= G -> fexp64 d <= G.
Proof. intros. rewrite fexp64_eq. lia. Qed.

Lemma F2R_drop (m e e' : Z) :
  e <= e' ->
  (F2R (m / 2 ^ (e' - e)) e' <= F2R m e)%R
  /\ (F2R (m + 1) e <= F2R (m / 2 ^ (e' - e) + 1) e')%R.
Proof.
  intros He.
  assert (Hp : 0 < 2 ^ (e' - e)) by (apply Z.pow_pos_nonneg; lia).
  pose proof (Z.div_mod m (2 ^ (e' - e)) ltac:(lia)) as Hdm.
  pose proof (Z.mod_pos_bound m (2 ^ (e' - e)) Hp) as Hmod.
  replace e' with (e + (e' - e)) at 2 4 by lia.
  rewrite <- !F2R_shift by lia.
  split; apply F2R_le; nia.
Qed.

(** What [binary_round_aux] returns for a value [x] that lies between the
    mantissa and its successor: a finite number of the given sign whose
    magnitude is within two units of the exponent bound [G] of [x], and is
    not below any integer that [x] is not below. *)
Lemma binary_round_aux_bound
  (s : bool) (m e : Z) (l : location) (x : R) (B G : Z) :
  0 <= m ->
  (F2R m e <= x < F2R (m + 1) e)%R ->
  (x < bpow B)%R ->
  e <= G -> B - 52 <= G -> -1074 <= G -> G <= 0 -> 0 <= B ->
  exists y : R,
    SF_finite (binary_round_aux prec emax s m e l) = true
    /\ SF2R (binary_round_aux prec emax s m e l) = (if s then - y else y)%R
    /\ (0 <= y)%R
    /\ (x - 2 * bpow G <= y <= x + 2 * bpow G)%R
    /\ (forall n : Z, (IZR n <= x)%R -> (IZR n <= y)%R).
Proof.
  intros Hm [Hlo Hhi] HB He HBG HG HG0 HB0.
  unfold binary_round_aux.
  pose proof (shr_fexp_spec m e l Hm) as H1. cbv zeta in H1.
  destruct (shr_fexp prec emax m e l) as [mrs1 e1]. cbn [fst snd] in H1.
  destruct H1 as [Hm1 He1]. rewrite <- He1 in Hm1.
  set (m1 := shr_m mrs1) in *.
  assert (Hee1 : e <= e1) by lia.
  assert (Hm1nn : 0 <= m1).
  { rewrite Hm1. apply Z.div_pos; [exact Hm|]. apply Z.pow_pos_nonneg; lia. }
  assert (He1G : e1 <= G).
  { rewrite He1. apply Z.max_lub; [exact He|].
    destruct (Z.eq_dec m 0) as [->|Hnz].
    - cbn [Zdigits2]. rewrite fexp64_eq. lia.
    - apply (fexp64_small _ B); [|lia|lia].
      apply Zdigits2_F2R; [lia|lra]. }
  destruct (F2R_drop m e e1 Hee1) as [Hd1 Hd1'].
  rewrite <- Hm1 in Hd1, Hd1'.
  assert (Hx1 : (F2R m1 e1 <= x < F2R (m1 + 1) e1)%R) by lra.
  (* rounding to nearest adds at most one unit *)
  set (m2 := round_nearest_even m1 (loc_of_shr_record mrs1)).
  assert (Hm2 : m1 <= m2 <= m1 + 1).
  { destruct (round_nearest_even_cases m1 (loc_of_shr_record mrs1)) as [E|E];
      unfold m2; rewrite E; lia. }
  assert (Hm2nn : 0 <= m2) by lia.
  pose proof (shr_fexp_spec m2 e1 loc_Exact Hm2nn) as H3. cbv zeta in H3.
  destruct (shr_fexp prec emax m2 e1 loc_Exact) as [mrs3 e3].
  cbn [fst snd] in H3. destruct H3 as [Hm3 He3]. rewrite <- He3 in Hm3.
  set (m3 := shr_m mrs3) in *.
  assert (Hee3 : e1 <= e3) by lia.
  assert (Hm3nn : 0 <= m3).
  { rewrite Hm3. apply Z.div_pos; [exact Hm2nn|]. apply Z.pow_pos_nonneg; lia. }
  pose proof (bpow_gt_0 e1) as Hb1. pose proof (bpow_gt_0 e3) as Hb3.
  pose proof (bpow_le e1 G He1G) as Hb1G.
  pose proof (F2R_le m1 m2 e1 ltac:(lia)) as Hm12.
  pose proof (F2R_le m2 (m1 + 1) e1 ltac:(lia)) as Hm21.
  rewrite F2R_succ in Hm21, Hx1.
  assert (He3G : e3 <= G).
  { rewrite He3. apply Z.max_lub; [exact He1G|].
    destruct (Z.eq_dec m2 0) as [E0|Hnz].
    - rewrite E0. cbn [Zdigits2]. rewrite fexp64_eq. lia.
    - apply (fexp64_small _ (B + 1)); [|lia|lia].
      apply Zdigits2_F2R; [lia|].
      replace (B + 1) with (1 + B) by lia. rewrite bpow_add.
      replace (bpow 1) with 2%R by (unfold bpow; simpl; ring).
      pose proof (bpow_le e1 B ltac:(lia)). lra. }
  pose proof (bpow_le e3 G He3G) as Hb3G.
  destruct (F2R_drop m2 e1 e3 Hee3) as [Hd3 Hd3'].
  rewrite <- Hm3 in Hd3, Hd3'. rewrite !F2R_succ in Hd3'.
  exists (F2R m3 e3).
  assert (Hres :
    SF_finite
      (match m3 with
       | 0 => S754_zero s
       | Z.pos m0 =>
           if e3 <=? emax - prec then S754_finite s m0 e3 else S754_infinity s
       | Z.neg _ => S754_nan
       end) = true
    /\ SF2R
      (match m3 with
       | 0 => S754_zero s
       | Z.pos m0 =>
           if e3 <=? emax - prec then S754_finite s m0 e3 else S754_infinity s
       | Z.neg _ => S754_nan
       end) = (if s then - F2R m3 e3 else F2R m3 e3)%R).
  { destruct m3 as [|p|p]; [| |lia].
    - cbn [SF_finite SF2R]. rewrite F2R_0. split; [reflexivity|].
      destruct s; lra.
    - destruct (Z.leb_spec e3 (emax - prec)) as [_|Hbig].
      + cbn [SF_finite SF2R]. split; [reflexivity|].
        destruct s; cbn [cond_Zopp]; [apply F2R_opp | reflexivity].
      + exfalso. change (emax - prec) with 971 in Hbig. lia. }
  destruct Hres as [Hfin Hval].
  split; [exact Hfin|]. split; [exact Hval|].
  split; [apply F2R_nonneg; exact Hm3nn|].
  split; [lra|].
  intros n Hn.
  assert (He10 : e1 <= 0) by lia. assert (He30 : e3 <= 0) by lia.
  assert (Hn1 : n * 2 ^ (- e1) <= m2).
  { assert (H : n * 2 ^ (- e1) < m1 + 1).
    { apply (F2R_lt_inv _ _ e1). rewrite <- IZR_F2R by exact He10.
      rewrite F2R_succ. lra. }
    lia. }
  rewrite (IZR_F2R n e3 He30). apply F2R_le. rewrite Hm3.
  apply Z.div_le_lower_bound; [apply Z.pow_pos_nonneg; lia|].
  replace (- e1) with ((e3 - e1) + - e3) in Hn1 by lia.
  rewrite Z.pow_add_r in Hn1 by lia. lia.
Qed.

(** ** The operations on floats of moderate size *)

Lemma SF2R_finite (s : bool) (m : positive) (e : Z) :
  SF2R (S754_finite s m e)
  = (if s then - F2R (Z.pos m) e else F2R (Z.pos m) e)%R.
Proof. destruct s; cbn [SF2R cond_Zopp]; [apply F2R_opp | reflexivity]. Qed.

Lemma F2R_pos (m : positive) (e : Z) : (0 < F2R (Z.pos m) e)%R.
Proof.
  unfold F2R. apply Rmult_lt_0_compat; [apply IZR_lt; lia | apply bpow_gt_0].
Qed.

Lemma F2R_mul (m1 e1 m2 e2 : Z) :
  F2R (m1 * m2) (e1 + e2) = (F2R m1 e1 * F2R m2 e2)%R.
Proof. unfold F2R. rewrite mult_IZR, bpow_add. ring. Qed.

Lemma F2R_add (m1 m2 e : Z) : F2R (m1 + m2) e = (F2R m1 e + F2R m2 e)%R.
Proof. unfold F2R. rewrite plus_IZR. ring. Qed.

Lemma F2R_sub (m1 m2 e : Z) : F2R (m1 - m2) e = (F2R m1 e - F2R m2 e)%R.
Proof. unfold F2R. rewrite minus_IZR. ring. Qed.

(** The exponent of a valid number below [2 ^ 15]. *)
Lemma valid_exponent (s : bool) (m : positive) (e : Z) :
  valid64 (S754_finite s m e) = true ->
  (F2R (Z.pos m) e < bpow 15)%R ->
  e <= -38.
Proof.
  intros Hv Hlt. cbn [SpecFloat.valid_binary] in Hv. unfold bounded in Hv.
  apply andb_prop in Hv. destruct Hv as [Hc _].
  unfold canonical_mantissa in Hc. apply Z.eqb_eq in Hc.
  rewrite fexp64_eq in Hc.
  pose proof (Zdigits2_F2R (Z.pos m) e 15 ltac:(lia) Hlt) as Hd.
  cbn [Zdigits2] in Hd. lia.
Qed.

Lemma bpow_15 : bpow 15 = 32768%R.
Proof. rewrite bpow_IZR by lia. reflexivity. Qed.

Lemma eps_pos : (0 < eps)%R.
Proof. unfold eps. pose proof (bpow_gt_0 (-37)). lra. Qed.

(** [eps] is below [10 ^ -10]. *)
Lemma eps_small : (eps * 10000000000 < 1)%R.
Proof.
  unfold eps.
  assert (H : (bpow (-37) * IZR (2 ^ 37) = 1)%R).
  { rewrite <- (bpow_IZR 37) by lia. rewrite <- bpow_add. reflexivity. }
  assert (H' : (0 < bpow (-37))%R) by apply bpow_gt_0.
  assert (E : IZR (2 ^ 37) = 137438953472%R) by reflexivity.
  rewrite E in H. nra.
Qed.

Lemma SFmul_bound (X Y : spec_float) :
  SF_finite X = true -> SF_finite Y = true ->
  valid64 X = true -> valid64 Y = true ->
  (- bpow 15 < SF2R X < bpow 15)%R ->
  (- bpow 15 < SF2R Y < bpow 15)%R ->
  (- bpow 15 < SF2R X * SF2R Y < bpow 15)%R ->
  SF_finite (SF64mul X Y) = true
  /\ (SF2R X * SF2R Y - eps <= SF2R (SF64mul X Y)
      <= SF2R X * SF2R Y + eps)%R
  /\ (0 <= SF2R X -> 0 <= SF2R Y ->
      forall n : Z, IZR n <= SF2R X * SF2R Y -> IZR n <= SF2R (SF64mul X Y))%R.
Proof.
  intros HfX HfY HvX HvY HbX HbY HbP.
  pose proof eps_pos as Heps.
  destruct X as [sx| |  |sx mx ex]; try discriminate HfX;
    destruct Y as [sy| | |sy my ey]; try discriminate HfY;
    cbn [SF64mul SFmul]; unfold SF64mul; cbn [SFmul SF_finite];
    try (cbn [SF2R]; split; [reflexivity|];
         split; [rewrite ?Rmult_0_l, ?Rmult_0_r; lra|];
         intros _ _ n Hn; rewrite ?Rmult_0_l, ?Rmult_0_r in Hn; exact Hn).
  rewrite !SF2R_finite in *.
  pose proof (F2R_pos mx ex) as Hpx. pose proof (F2R_pos my ey) as Hpy.
  assert (Hex : ex <= -38).
  { apply (valid_exponent sx mx ex HvX). destruct sx; lra. }
  assert (Hey : ey <= -38).
  { apply (valid_exponent sy my ey HvY). destruct sy; lra. }
  assert (Hx : (F2R (Z.pos mx) ex * F2R (Z.pos my) ey < bpow 15)%R).
  { destruct sx, sy; lra. }
  destruct (binary_round_aux_bound (xorb sx sy) (Z.pos (mx * my)) (ex + ey)
              loc_Exact (F2R (Z.pos mx) ex * F2R (Z.pos my) ey) 15 (-37))
    as [y [Hfin [Hval [Hy [Herr Hmono]]]]];
    try lia.
  - rewrite Pos2Z.inj_mul, F2R_succ, F2R_mul.
    pose proof (bpow_gt_0 (ex + ey)). lra.
  - exact Hx.
  - split; [exact Hfin|]. rewrite Hval. fold eps in Herr.
    split.
    + destruct sx, sy; cbn [xorb]; lra.
    + intros H0x H0y n Hn.
      destruct sx; [lra|]. destruct sy; [lra|]. cbn [xorb].
      apply Hmono. exact Hn.
Qed.

Lemma pos_iter_xO (m d : positive) :
  Z.pos (Pos.iter xO m d) = Z.pos m * 2 ^ Z.pos d.
Proof.
  induction d as [|d IH] using Pos.peano_ind.
  - cbn [Pos.iter]. rewrite Pos2Z.inj_xO. change (2 ^ 1) with 2. lia.
  - rewrite Pos.iter_succ, Pos2Z.inj_xO, IH, Pos2Z.inj_succ.
    rewrite Z.pow_succ_r by lia. lia.
Qed.

Lemma shl_align_spec (mx : positive) (ex ex' : Z) :
  Z.pos (fst (shl_align mx ex ex'))
  = Z.pos mx * 2 ^ (ex - snd (shl_align mx ex ex'))
  /\ snd (shl_align mx ex ex') = Z.min ex ex'.
Proof.
  unfold shl_align. destruct (ex' - ex) as [|d|d] eqn:E; cbn [fst snd].
  - replace (ex - ex) with 0 by lia. simpl. split; lia.
  - replace (ex - ex) with 0 by lia. simpl. split; lia.
  - rewrite pos_iter_xO. replace (ex - ex') with (Z.pos d) by lia.
    split; lia.
Qed.

Lemma shl_align_F2R (s : bool) (mx : positive) (ex ez : Z) :
  ez <= ex ->
  F2R (cond_Zopp s (Z.pos (fst (shl_align mx ex ez)))) ez
  = SF2R (S754_finite s mx ex).
Proof.
  intros He. destruct (shl_align_spec mx ex ez) as [Hm Hs].
  rewrite Z.min_r in Hs by exact He. rewrite Hs in Hm. rewrite Hm.
  rewrite SF2R_finite.
  destruct s; cbn [cond_Zopp]; rewrite ?F2R_opp, F2R_shift by lia;
    replace (ez + (ex - ez)) with ex by lia; reflexivity.
Qed.

Lemma binary_round_bound (s : bool) (p : positive) (e : Z) :
  (F2R (Z.pos p) e < bpow 15)%R ->
  e <= -37 ->
  exists y : R,
    SF_finite (binary_round prec emax s p e) = true
    /\ SF2R (binary_round prec emax s p e) = (if s then - y else y)%R
    /\ (0 <= y)%R
    /\ (F2R (Z.pos p) e - eps <= y <= F2R (Z.pos p) e + eps)%R
    /\ (forall n : Z, (IZR n <= F2R (Z.pos p) e)%R -> (IZR n <= y)%R).
Proof.
  intros Hlt He. unfold binary_round.
  destruct (shl_align_spec p e (fexp64 (Z.pos (digits2_pos p) + e)))
    as [Hm Hs].
  destruct (shl_align p e (fexp64 (Z.pos (digits2_pos p) + e))) as [mz ez].
  cbn [fst snd] in Hm, Hs.
  assert (Hez : ez <= e) by lia.
  assert (HF : F2R (Z.pos mz) ez = F2R (Z.pos p) e).
  { rewrite Hm. rewrite F2R_shift by lia. f_equal. lia. }
  rewrite <- HF in *.
  apply (binary_round_aux_bound s (Z.pos mz) ez loc_Exact
           (F2R (Z.pos mz) ez) 15 (-37)); try lia.
  - rewrite F2R_succ. pose proof (bpow_gt_0 ez). lra.
  - exact Hlt.
Qed.

Lemma binary_normalize_bound (m e : Z) :
  (- bpow 15 < F2R m e < bpow 15)%R ->
  e <= -37 ->
  SF_finite (binary_normalize prec emax m e false) = true
  /\ (F2R m e - eps <= SF2R (binary_normalize prec emax m e false)
      <= F2R m e + eps)%R
  /\ (0 <= F2R m e ->
      forall n : Z, IZR n <= F2R m e ->
                    IZR n <= SF2R (binary_normalize prec emax m e false))%R.
Proof.
  intros Hb He. pose proof eps_pos as Heps.
  destruct m as [|p|p]; cbn [binary_normalize].
  - cbn [SF_finite SF2R]. rewrite F2R_0. split; [reflexivity|].
    split; [lra|]. intros _ n Hn. exact Hn.
  - destruct (binary_round_bound false p e) as [y [Hf [Hv [Hy [Herr Hm]]]]];
      [lra | exact He |].
    rewrite Hv. split; [exact Hf|]. split; [exact Herr|].
    intros _ n Hn. apply Hm. exact Hn.
  - change (Z.neg p) with (- Z.pos p) in *. rewrite F2R_opp in *.
    destruct (binary_round_bound true p e) as [y [Hf [Hv [Hy [Herr Hm]]]]];
      [lra | exact He |].
    rewrite Hv. split; [exact Hf|]. split; [lra|].
    intros H0. pose proof (F2R_pos p e). lra.
Qed.

Lemma SF2R_finite_bound (s : bool) (m : positive) (e : Z) :
  (- bpow 15 < SF2R (S754_finite s m e) < bpow 15)%R ->
  (F2R (Z.pos m) e < bpow 15)%R.
Proof. rewrite SF2R_finite. destruct s; lra. Qed.

Lemma SFadd_bound (X Y : spec_float) :
  SF_finite X = true -> SF_finite Y = true ->
  valid64 X = true -> valid64 Y = true ->
  (- bpow 15 < SF2R X < bpow 15)%R ->
  (- bpow 15 < SF2R Y < bpow 15)%R ->
  (- bpow 15 < SF2R X + SF2R Y < bpow 15)%R ->
  SF_finite (SF64add X Y) = true
  /\ (SF2R X + SF2R Y - eps <= SF2R (SF64add X Y)
      <= SF2R X + SF2R Y + eps)%R
  /\ (0 <= SF2R X + SF2R Y ->
      forall n : Z, IZR n <= SF2R X + SF2R Y -> IZR n <= SF2R (SF64add X Y))%R.
Proof.
  intros HfX HfY HvX HvY HbX HbY HbS.
  pose proof eps_pos as Heps.
  destruct X as [sx| |  |sx mx ex]; try discriminate HfX;
    destruct Y as [sy| | |sy my ey]; try discriminate HfY;
    unfold SF64add; cbn [SFadd].
  - assert (E : SF2R (if sx then if sy then S754_zero sx else S754_zero false
                      else if sy then S754_zero false else S754_zero sx) = 0%R
                /\ SF_finite (if sx then if sy then S754_zero sx
                                         else S754_zero false
                              else if sy then S754_zero false
                                   else S754_zero sx) = true)
      by (destruct sx, sy; split; reflexivity).
    destruct E as [E1 E2].
    destruct sx, sy; cbn [SF2R SF_finite] in *;
      (split; [reflexivity|]; split; [lra|]; intros _ n Hn; lra).
  - split; [reflexivity|]. cbn [SF2R] in *.
    split; [lra|]. intros _ n Hn. lra.
  - split; [reflexivity|]. cbn [SF2R] in *.
    split; [lra|]. intros _ n Hn. lra.
  - assert (Hex : ex <= -38)
      by (apply (valid_exponent sx mx ex HvX), (SF2R_finite_bound sx), HbX).
    assert (Hey : ey <= -38)
      by (apply (valid_exponent sy my ey HvY), (SF2R_finite_bound sy), HbY).
    rewrite <- (shl_align_F2R sx mx ex (Z.min ex ey)) in * by lia.
    rewrite <- (shl_align_F2R sy my ey (Z.min ex ey)) in * by lia.
    rewrite <- F2R_add in *.
    apply binary_normalize_bound; [exact HbS | lia].
Qed.

Lemma SFsub_bound (X Y : spec_float) :
  SF_finite X = true -> SF_finite Y = true ->
  valid64 X = true -> valid64 Y = true ->
  (- bpow 15 < SF2R X < bpow 15)%R ->
  (- bpow 15 < SF2R Y < bpow 15)%R ->
  (- bpow 15 < SF2R X - SF2R Y < bpow 15)%R ->
  SF_finite (SF64sub X Y) = true
  /\ (SF2R X - SF2R Y - eps <= SF2R (SF64sub X Y)
      <= SF2R X - SF2R Y + eps)%R
  /\ (0 <= SF2R X - SF2R Y ->
      forall n : Z, IZR n <= SF2R X - SF2R Y -> IZR n <= SF2R (SF64sub X Y))%R.
Proof.
  intros HfX HfY HvX HvY HbX HbY HbS.
  pose proof eps_pos as Heps.
  destruct X as [sx| |  |sx mx ex]; try discriminate HfX;
    destruct Y as [sy| | |sy my ey]; try discriminate HfY;
    unfold SF64sub; cbn [SFsub].
  - destruct sx, sy; cbn [SF2R SF_finite] in *;
      (split; [reflexivity|]; split; [lra|]; intros _ n Hn; lra).
  - split; [reflexivity|]. rewrite !SF2R_finite in *. cbn [SF2R] in *.
    split; [destruct sy; cbn [negb]; lra|].
    intros _ n Hn. destruct sy; cbn [negb]; lra.
  - split; [reflexivity|]. cbn [SF2R] in *.
    split; [lra|]. intros _ n Hn. lra.
  - assert (Hex : ex <= -38)
      by (apply (valid_exponent sx mx ex HvX), (SF2R_finite_bound sx), HbX).
    assert (Hey : ey <= -38)
      by (apply (valid_exponent sy my ey HvY), (SF2R_finite_bound sy), HbY).
    rewrite <- (shl_align_F2R sx mx ex (Z.min ex ey)) in * by lia.
    rewrite <- (shl_align_F2R sy my ey (Z.min ex ey)) in * by lia.
    rewrite <- F2R_sub in *.
    apply binary_normalize_bound; [exact HbS | lia].
Qed.

Lemma F2R_Zdigits2_lower (m : positive) (e : Z) :
  (bpow (Zdigits2 (Z.pos m) - 1 + e) <= F2R (Z.pos m) e)%R.
Proof.
  pose proof (Zdigits2_bounds (Z.pos m) ltac:(lia)) as [Hlo _].
  rewrite bpow_add, (bpow_IZR (Zdigits2 (Z.pos m) - 1))
    by (cbn [Zdigits2]; lia).
  unfold F2R. apply Rmult_le_compat_r; [pose proof (bpow_gt_0 e); lra|].
  apply IZR_le. exact Hlo.
Qed.

Lemma F2R_Zdigits2_upper (m : positive) (e : Z) :
  (F2R (Z.pos m) e < bpow (Zdigits2 (Z.pos m) + e))%R.
Proof.
  pose proof (Zdigits2_bounds (Z.pos m) ltac:(lia)) as [_ Hhi].
  rewrite bpow_add, (bpow_IZR (Zdigits2 (Z.pos m)))
    by (cbn [Zdigits2]; lia).
  unfold F2R. apply Rmult_lt_compat_r; [apply bpow_gt_0|].
  apply IZR_lt. exact Hhi.
Qed.

(** The quotient mantissa and exponent that [SFdiv_core_binary] hands to the
    rounding step enclose the exact quotient. *)
Lemma SFdiv_core_binary_spec (mx my : positive) (ex ey : Z) :
  (F2R (Z.pos mx) ex / F2R (Z.pos my) ey < bpow 15)%R ->
  let '(q, e', l) := SFdiv_core_binary prec emax (Z.pos mx) ex (Z.pos my) ey in
  0 <= q
  /\ e' <= -37
  /\ (F2R q e' <= F2R (Z.pos mx) ex / F2R (Z.pos my) ey < F2R (q + 1) e')%R.
Proof.
  intros Hlt. unfold SFdiv_core_binary.
  set (d1 := Zdigits2 (Z.pos mx)). set (d2 := Zdigits2 (Z.pos my)).
  set (e' := Z.min (fexp64 (d1 + ex - (d2 + ey))) (ex - ey)).
  set (s := ex - ey - e').
  assert (Hs : 0 <= s) by (unfold s, e'; lia).
  set (m' := match s with
             | 0 => Z.pos mx
             | Z.pos _ => Z.shiftl (Z.pos mx) s
             | Z.neg _ => 0
             end).
  assert (Hm' : m' = Z.pos mx * 2 ^ s).
  { unfold m'. destruct s as [|p|p] eqn:E.
    - simpl. lia.
    - rewrite Z.shiftl_mul_pow2 by lia. reflexivity.
    - lia. }
  destruct (Z.div_eucl m' (Z.pos my)) as [q r] eqn:Ediv.
  assert (Hq : q = m' / Z.pos my) by (unfold Z.div; rewrite Ediv; reflexivity).
  pose proof (F2R_pos mx ex) as Hpx. pose proof (F2R_pos my ey) as Hpy.
  pose proof (bpow_gt_0 e') as Hbe'.
  assert (H2s : 0 < 2 ^ s) by (apply Z.pow_pos_nonneg; lia).
  (* the exact quotient, written over the common exponent *)
  assert (Hx : (F2R (Z.pos mx) ex / F2R (Z.pos my) ey
                = IZR m' / IZR (Z.pos my) * bpow e')%R).
  { rewrite Hm', mult_IZR. unfold F2R.
    replace ex with (s + e' + ey) at 1 by (unfold s; lia).
    rewrite !bpow_add, (bpow_IZR s) by exact Hs.
    pose proof (bpow_gt_0 ey). assert (0 < IZR (Z.pos my))%R
      by (apply IZR_lt; lia).
    field. split; lra. }
  assert (Hq0 : 0 <= q).
  { rewrite Hq. apply Z.div_pos; lia. }
  assert (HmyR : (0 < IZR (Z.pos my))%R) by (apply IZR_lt; lia).
  pose proof (Z.div_mod m' (Z.pos my) ltac:(lia)) as Hdm.
  pose proof (Z.mod_pos_bound m' (Z.pos my) ltac:(lia)) as Hmod.
  rewrite <- Hq in Hdm.
  split; [exact Hq0|]. split.
  - (* the exponent *)
    assert (Hd : d1 + ex - (d2 + ey) <= 15).
    { pose proof (F2R_Zdigits2_lower mx ex) as Hlo.
      pose proof (F2R_Zdigits2_upper my ey) as Hhi.
      fold d1 in Hlo. fold d2 in Hhi.
      set (A := F2R (Z.pos mx) ex) in *. set (Bv := F2R (Z.pos my) ey) in *.
      assert (HQ : (A / Bv * Bv = A)%R) by (field; lra).
      assert (H : (bpow (d1 - 1 + ex - (d2 + ey)) < bpow 15)%R).
      { eapply Rle_lt_trans; [|exact Hlt].
        replace (d1 - 1 + ex - (d2 + ey))
          with ((d1 - 1 + ex) + - (d2 + ey)) by lia.
        rewrite bpow_add.
        assert (Hinv : (bpow (- (d2 + ey)) * bpow (d2 + ey) = 1)%R).
        { rewrite <- bpow_add. replace (- (d2 + ey) + (d2 + ey)) with 0 by lia.
          apply bpow_0. }
        pose proof (bpow_gt_0 (- (d2 + ey))) as Hbi.
        pose proof (bpow_gt_0 (d1 - 1 + ex)) as Hbl.
        apply Rnot_lt_le. intros Hc.
        assert (H1 : (A / Bv * Bv
                      < bpow (d1 - 1 + ex) * bpow (- (d2 + ey)) * Bv)%R)
          by (apply Rmult_lt_compat_r; assumption).
        assert (H2 : (bpow (d1 - 1 + ex) * bpow (- (d2 + ey)) * Bv
                      < bpow (d1 - 1 + ex) * bpow (- (d2 + ey))
                        * bpow (d2 + ey))%R).
        { apply Rmult_lt_compat_l; [|exact Hhi].
          apply Rmult_lt_0_compat; assumption. }
        assert (H3 : (bpow (d1 - 1 + ex) * bpow (- (d2 + ey))
                      * bpow (d2 + ey) = bpow (d1 - 1 + ex))%R)
          by (rewrite Rmult_assoc, Hinv; ring).
        lra. }
      apply bpow_lt_inv in H. lia. }
    unfold e'. rewrite fexp64_eq. lia.
  - rewrite Hx. unfold F2R.
    set (Qz := (IZR m' / IZR (Z.pos my))%R).
    assert (HQz : (Qz * IZR (Z.pos my) = IZR m')%R)
      by (unfold Qz; field; lra).
    assert (Hlo : (IZR q <= Qz)%R).
    { apply (Rmult_le_reg_r (IZR (Z.pos my))); [exact HmyR|].
      rewrite HQz, <- mult_IZR. apply IZR_le. nia. }
    assert (Hhi : (Qz < IZR (q + 1))%R).
    { apply (Rmult_lt_reg_r (IZR (Z.pos my))); [exact HmyR|].
      rewrite HQz, <- mult_IZR. apply IZR_lt. nia. }
    split.
    + apply Rmult_le_compat_r; [lra | exact Hlo].
    + apply Rmult_lt_compat_r; [exact Hbe' | exact Hhi].
Qed.

Lemma SFdiv_bound (X : spec_float) (sy : bool) (my : positive) (ey : Z) :
  SF_finite X = true ->
  (- bpow 15 < SF2R X / SF2R (S754_finite sy my ey) < bpow 15)%R ->
  let Y := S754_finite sy my ey in
  SF_finite (SF64div X Y) = true
  /\ (SF2R X / SF2R Y - eps <= SF2R (SF64div X Y)
      <= SF2R X / SF2R Y + eps)%R
  /\ (0 <= SF2R X -> 0 < SF2R Y ->
      forall n : Z, IZR n <= SF2R X / SF2R Y -> IZR n <= SF2R (SF64div X Y))%R.
Proof.
  intros HfX HbP Y. unfold Y in *. clear Y.
  pose proof eps_pos as Heps.
  pose proof (F2R_pos my ey) as Hpy.
  destruct X as [sx| |  |sx mx ex]; try discriminate HfX;
    unfold SF64div; cbn [SFdiv].
  - cbn [SF_finite SF2R] in *. unfold Rdiv in *. rewrite Rmult_0_l in *.
    split; [reflexivity|]. split; [lra|]. intros _ _ n Hn. exact Hn.
  - pose proof (F2R_pos mx ex) as Hpx.
    rewrite !SF2R_finite in *.
    set (A := F2R (Z.pos mx) ex) in *. set (Bv := F2R (Z.pos my) ey) in *.
    assert (HsignP :
      ((if sx then - A else A) / (if sy then - Bv else Bv)
       = if xorb sx sy then - (A / Bv) else A / Bv)%R).
    { destruct sx, sy; cbn [xorb]; field; lra. }
    rewrite HsignP in *.
    assert (Hlt : (A / Bv < bpow 15)%R) by (destruct (xorb sx sy); lra).
    pose proof (SFdiv_core_binary_spec mx my ex ey Hlt) as Hcore.
    destruct (SFdiv_core_binary prec emax (Z.pos mx) ex (Z.pos my) ey)
      as [[q e'] l].
    destruct Hcore as [Hq [He' Hx]].
    destruct (binary_round_aux_bound (xorb sx sy) q e' l (A / Bv) 15 (-37))
      as [y [Hfin [Hval [Hy [Herr Hmono]]]]]; try lia; try assumption.
    split; [exact Hfin|]. rewrite Hval. fold eps in Herr. split.
    + destruct (xorb sx sy); lra.
    + intros H0x H0y n Hn.
      destruct sx; [lra|]. destruct sy; [lra|]. cbn [xorb] in *.
      apply Hmono. exact Hn.
Qed.

(** ** Order *)

Lemma valid_mantissa (s : bool) (m : positive) (e : Z) :
  valid64 (S754_finite s m e) = true ->
  -1074 <= e
  /\ Z.pos m < 2 ^ 53
  /\ (-1074 < e -> 2 ^ 52 <= Z.pos m).
Proof.
  intros Hv. cbn [SpecFloat.valid_binary] in Hv. unfold bounded in Hv.
  apply andb_prop in Hv. destruct Hv as [Hc _].
  unfold canonical_mantissa in Hc. apply Z.eqb_eq in Hc.
  rewrite fexp64_eq in Hc.
  pose proof (digits2_pos_bounds m) as [Hlo Hhi].
  assert (Hd : Z.pos (digits2_pos m) <= 53) by lia.
  split; [lia|]. split.
  - eapply Z.lt_le_trans; [exact Hhi|]. apply Z.pow_le_mono_r; lia.
  - intros He. assert (Hd53 : Z.pos (digits2_pos m) = 53) by lia.
    rewrite Hd53 in Hlo. exact Hlo.
Qed.

(** Among valid positive numbers a smaller exponent is a smaller value. *)
Lemma valid_exponent_lt (m1 m2 : positive) (e1 e2 : Z) :
  valid64 (S754_finite false m1 e1) = true ->
  valid64 (S754_finite false m2 e2) = true ->
  e1 < e2 ->
  (F2R (Z.pos m1) e1 < F2R (Z.pos m2) e2)%R.
Proof.
  intros Hv1 Hv2 He.
  destruct (valid_mantissa _ _ _ Hv1) as [Hmin1 [Hhi1 _]].
  destruct (valid_mantissa _ _ _ Hv2) as [_ [_ Hlo2]].
  specialize (Hlo2 ltac:(lia)).
  apply Rlt_le_trans with (F2R (2 ^ 53) e1).
  - unfold F2R. apply Rmult_lt_compat_r; [apply bpow_gt_0|].
    apply IZR_lt. exact Hhi1.
  - apply Rle_trans with (F2R (2 ^ 52) e2).
    + replace e2 with (e1 + 1 + (e2 - e1 - 1)) by lia.
      rewrite <- F2R_shift by lia. rewrite <- F2R_shift by lia.
      apply F2R_le.
      assert (0 < 2 ^ (e2 - e1 - 1)) by (apply Z.pow_pos_nonneg; lia).
      change (2 ^ 53) with (2 ^ 52 * 2 ^ 1). nia.
    + apply F2R_le. exact Hlo2.
Qed.

(** The comparison of two valid positive numbers is the comparison of their
    values. *)
Lemma SFcompare_pos (m1 m2 : positive) (e1 e2 : Z) :
  valid64 (S754_finite false m1 e1) = true ->
  valid64 (S754_finite false m2 e2) = true ->
  match SFcompare (S754_finite false m1 e1) (S754_finite false m2 e2) with
  | Some Lt => (F2R (Z.pos m1) e1 < F2R (Z.pos m2) e2)%R
  | Some Eq => F2R (Z.pos m1) e1 = F2R (Z.pos m2) e2
  | Some Gt => (F2R (Z.pos m2) e2 < F2R (Z.pos m1) e1)%R
  | None => False
  end.
Proof.
  intros Hv1 Hv2. cbn [SFcompare].
  destruct (Z.compare_spec e1 e2) as [E|Hlt|Hgt].
  - subst e2.
    change (Pos.compare_cont Eq m1 m2) with (Pos.compare m1 m2).
    destruct (Pos.compare_spec m1 m2) as [E|Hlt|Hgt].
    + subst m2. reflexivity.
    + unfold F2R. apply Rmult_lt_compat_r; [apply bpow_gt_0|].
      apply IZR_lt. lia.
    + unfold F2R. apply Rmult_lt_compat_r; [apply bpow_gt_0|].
      apply IZR_lt. lia.
  - apply valid_exponent_lt; assumption.
  - apply valid_exponent_lt; assumption || lia.
Qed.

(** ** Primitive floats *)

Lemma mul_bound (x y : float) :
  small x -> small y ->
  (- 32768 < FR x * FR y < 32768)%R ->
  Ffin (x * y)
  /\ (FR x * FR y - eps <= FR (x * y) <= FR x * FR y + eps)%R
  /\ (0 <= FR x -> 0 <= FR y ->
      forall n : Z, IZR n <= FR x * FR y -> IZR n <= FR (x * y))%R.
Proof.
  intros [Hfx Hbx] [Hfy Hby] Hb. unfold Ffin, FR in *. rewrite mul_spec.
  pose proof bpow_15 as E15.
  apply SFmul_bound; try apply Prim2SF_valid; try assumption; lra.
Qed.

Lemma add_bound (x y : float) :
  small x -> small y ->
  (- 32768 < FR x + FR y < 32768)%R ->
  Ffin (x + y)
  /\ (FR x + FR y - eps <= FR (x + y) <= FR x + FR y + eps)%R
  /\ (0 <= FR x + FR y ->
      forall n : Z, IZR n <= FR x + FR y -> IZR n <= FR (x + y))%R.
Proof.
  intros [Hfx Hbx] [Hfy Hby] Hb. unfold Ffin, FR in *. rewrite add_spec.
  pose proof bpow_15 as E15.
  apply SFadd_bound; try apply Prim2SF_valid; try assumption; lra.
Qed.

Lemma sub_bound (x y : float) :
  small x -> small y ->
  (- 32768 < FR x - FR y < 32768)%R ->
  Ffin (x - y)
  /\ (FR x - FR y - eps <= FR (x - y) <= FR x - FR y + eps)%R
  /\ (0 <= FR x - FR y ->
      forall n : Z, IZR n <= FR x - FR y -> IZR n <= FR (x - y))%R.
Proof.
  intros [Hfx Hbx] [Hfy Hby] Hb. unfold Ffin, FR in *. rewrite sub_spec.
  pose proof bpow_15 as E15.
  apply SFsub_bound; try apply Prim2SF_valid; try assumption; lra.
Qed.

Lemma Ffin_nonzero (y : float) :
  Ffin y -> FR y <> 0%R ->
  exists s m e, Prim2SF y = S754_finite s m e.
Proof.
  unfold Ffin, FR. intros Hf Hnz.
  destruct (Prim2SF y) as [s| | |s m e]; try discriminate Hf.
  - exfalso. apply Hnz. reflexivity.
  - exists s, m, e. reflexivity.
Qed.

Lemma div_bound (x y : float) :
  Ffin x -> Ffin y -> (0 < FR y)%R ->
  (- 32768 < FR x / FR y < 32768)%R ->
  Ffin (x / y)
  /\ (FR x / FR y - eps <= FR (x / y) <= FR x / FR y + eps)%R
  /\ (0 <= FR x ->
      forall n : Z, IZR n <= FR x / FR y -> IZR n <= FR (x / y))%R.
Proof.
  intros Hfx Hfy Hy Hb.
  destruct (Ffin_nonzero y Hfy ltac:(lra)) as [s [m [e E]]].
  unfold Ffin, FR in *. rewrite div_spec. rewrite E in *.
  pose proof bpow_15 as E15.
  assert (Hb' : (- bpow 15 < SF2R (Prim2SF x) / SF2R (S754_finite s m e) < bpow 15)%R) by lra.
  destruct (SFdiv_bound (Prim2SF x) s m e Hfx Hb') as [H1 [H2 H3]].
  split; [exact H1|]. split; [exact H2|].
  intros H0 n Hn. apply H3; assumption.
Qed.

Lemma FR_opp (x : float) : FR (- x) = (- FR x)%R.
Proof.
  unfold FR. rewrite opp_spec.
  destruct (Prim2SF x) as [s| | |s m e]; cbn [SFopp SF2R]; try lra.
  destruct s; cbn [negb cond_Zopp]; rewrite ?F2R_opp; lra.
Qed.

Lemma Ffin_opp (x : float) : Ffin x -> Ffin (- x).
Proof.
  unfold Ffin. rewrite opp_spec.
  destruct (Prim2SF x); cbn [SFopp SF_finite]; auto.
Qed.

Lemma Prim2SF_zero : Prim2SF 0 = S754_zero false.
Proof. reflexivity. Qed.

(** The test [c < 0] on a finite number. *)
Lemma ltb_zero (c : float) :
  Ffin c ->
  if (c <? 0)%float then (FR c < 0)%R else (0 <= FR c)%R.
Proof.
  unfold Ffin, FR. rewrite ltb_spec, Prim2SF_zero. intros Hf.
  destruct (Prim2SF c) as [s| | |s m e]; try discriminate Hf.
  - unfold SFltb. cbn [SFcompare SF2R]. lra.
  - unfold SFltb. cbn [SFcompare]. rewrite SF2R_finite.
    pose proof (F2R_pos m e). destruct s; lra.
Qed.

Lemma abs_bound (c : float) :
  Ffin c ->
  Ffin (abs c)
  /\ FR (abs c) = (if (c <? 0)%float then - FR c else FR c)%R
  /\ (0 <= FR (abs c))%R.
Proof.
  intros Hf. pose proof (ltb_zero c Hf) as Hlt. revert Hf Hlt.
  unfold Ffin, FR. rewrite abs_spec, ltb_spec, Prim2SF_zero.
  destruct (Prim2SF c) as [s| | |s m e]; intros Hf Hlt;
    try discriminate Hf.
  - cbn [SFabs SF_finite SF2R]. split; [reflexivity|].
    split; [destruct (SFltb _ _); lra | lra].
  - cbn [SFabs SF_finite]. rewrite !SF2R_finite in *.
    pose proof (F2R_pos m e). split; [reflexivity|].
    unfold SFltb in *. cbn [SFcompare] in *.
    destruct s; split; lra.
Qed.

(** A bound accepted by [<=?] is a bound on the value. *)
Lemma abs_leb_inv (c t : float) (mt : positive) (et : Z) :
  Prim2SF t = S754_finite false mt et ->
  (abs c <=? t)%float = true ->
  Ffin c /\ (- FR t <= FR c <= FR t)%R.
Proof.
  intros Et. unfold Ffin, FR. rewrite leb_spec, abs_spec, Et.
  pose proof (Prim2SF_valid c) as Hvc. pose proof (Prim2SF_valid t) as Hvt.
  rewrite Et in Hvt.
  destruct (Prim2SF c) as [s| | |s m e]; unfold SFleb;
    cbn [SFabs]; intros H.
  - rewrite SF2R_finite. cbn [SF2R SF_finite].
    pose proof (F2R_pos mt et). split; [reflexivity | lra].
  - cbn [SFcompare] in H. discriminate H.
  - cbn [SFcompare] in H. discriminate H.
  - assert (Hvc' : valid64 (S754_finite false m e) = true) by exact Hvc.
    pose proof (SFcompare_pos m mt e et Hvc' Hvt) as Hcmp.
    rewrite !SF2R_finite. pose proof (F2R_pos m e).
    destruct (SFcompare (S754_finite false m e) (S754_finite false mt et))
      as [[| |]|]; try discriminate H; cbn [SF_finite];
      (split; [reflexivity | destruct s; lra]).
Qed.

(** A value below the bound passes [<=?]. *)
Lemma leb_true (x t : float) (mt : positive) (et : Z) :
  Prim2SF t = S754_finite false mt et ->
  Ffin x -> (0 <= FR x < FR t)%R ->
  (x <=? t)%float = true.
Proof.
  intros Et. unfold Ffin, FR. rewrite leb_spec, Et.
  pose proof (Prim2SF_valid x) as Hvx. pose proof (Prim2SF_valid t) as Hvt.
  rewrite Et in Hvt. rewrite SF2R_finite.
  destruct (Prim2SF x) as [s| | |s m e]; unfold SFleb; intros Hf Hb;
    try discriminate Hf.
  - reflexivity.
  - rewrite SF2R_finite in Hb. pose proof (F2R_pos m e).
    destruct s; [lra|].
    pose proof (SFcompare_pos m mt e et Hvx Hvt) as Hcmp.
    destruct (SFcompare (S754_finite false m e) (S754_finite false mt et))
      as [[| |]|]; try reflexivity; [lra | contradiction].
Qed.

(** ** Whole numbers and [Math.floor] *)

Lemma is_int_float_spec (x : float) (k : Z) :
  is_int_float x k = true -> Ffin x /\ FR x = IZR k.
Proof.
  unfold is_int_float, Ffin, FR.
  destruct (Prim2SF x) as [s| | |s m e]; try discriminate.
  - intros H. apply Z.eqb_eq in H. subst k. split; reflexivity.
  - destruct s; [discriminate|]. intros H.
    apply andb_prop in H. destruct H as [He Hm].
    apply Z.leb_le in He. apply Z.eqb_eq in Hm.
    split; [reflexivity|].
    rewrite SF2R_finite, Hm. symmetry. apply IZR_F2R. exact He.
Qed.

Lemma Number_of_Z_degrees (k : Z) :
  0 <= k <= 180 -> Ffin (Number_of_Z k) /\ FR (Number_of_Z k) = IZR k.
Proof.
  intros Hk. apply is_int_float_spec.
  apply (range_cases 181 (fun k => is_int_float (Number_of_Z k) k)).
  - vm_compute. reflexivity.
  - lia.
Qed.

Lemma FR_100 : Ffin 100 /\ FR 100 = 100%R.
Proof. apply (is_int_float_spec 100 100). vm_compute. reflexivity. Qed.

Lemma FR_60 : Ffin 60 /\ FR 60 = 60%R.
Proof. apply (is_int_float_spec 60 60). vm_compute. reflexivity. Qed.

Lemma FR_180 : Ffin 180 /\ FR 180 = 180%R.
Proof. apply (is_int_float_spec 180 180). vm_compute. reflexivity. Qed.

Lemma F2R_0_exp (z : Z) : F2R z 0 = IZR z.
Proof. unfold F2R. rewrite bpow_0. ring. Qed.

(** [Math.floor] of a finite number in [0, 181) is the whole number below
    it. *)
Lemma Math_floor_degrees (x : float) :
  Ffin x -> (0 <= FR x < 181)%R ->
  exists k : Z,
    0 <= k <= 180
    /\ (IZR k <= FR x < IZR k + 1)%R
    /\ Ffin (Math_floor x)
    /\ FR (Math_floor x) = IZR k.
Proof.
  intros Hf Hb.
  assert (Hk : forall k : Z, (IZR k <= FR x)%R -> k <= 180).
  { intros k Hle. assert (H : (IZR k < IZR 181)%R) by lra.
    apply lt_IZR in H. lia. }
  assert (Hk0 : forall k : Z, (FR x < IZR k + 1)%R -> 0 <= k).
  { intros k Hlt. assert (H : (IZR (-1) < IZR k)%R) by lra.
    apply lt_IZR in H. lia. }
  unfold Math_floor. revert Hf Hb Hk Hk0. unfold Ffin at 1 2, FR.
  destruct (Prim2SF x) as [s| | |s m e] eqn:E; intros Hf Hb Hk Hk0;
    try discriminate Hf.
  - exists 0. cbn [SF2R] in *. unfold Ffin, FR. rewrite E.
    cbn [SF2R SF_finite]. repeat split; try lia; lra.
  - rewrite SF2R_finite in *. pose proof (F2R_pos m e) as Hpos.
    destruct s; [lra|].
    destruct (0 <=? e) eqn:He.
    + apply Z.leb_le in He.
      assert (Hx : F2R (Z.pos m) e = IZR (Z.pos m * 2 ^ e)).
      { rewrite <- (F2R_0_exp (Z.pos m * 2 ^ e)).
        rewrite F2R_shift by exact He. reflexivity. }
      exists (Z.pos m * 2 ^ e).
      unfold Ffin, FR. rewrite E, SF2R_finite.
      split; [split; [apply Hk0 | apply Hk]; lra|].
      split; [lra|]. split; [reflexivity | exact Hx].
    + apply Z.leb_gt in He.
      rewrite Z.shiftr_div_pow2 by lia.
      replace (2 ^ (- e) - 1) with (Z.ones (- e))
        by (rewrite Z.ones_equiv; lia).
      rewrite Z.land_ones by lia.
      assert (Hp : 0 < 2 ^ (- e)) by (apply Z.pow_pos_nonneg; lia).
      destruct (F2R_drop (Z.pos m) e 0 ltac:(lia)) as [Hlo Hhi].
      replace (0 - e) with (- e) in * by lia.
      rewrite !F2R_0_exp in *.
      cbv zeta.
      destruct (Z.pos m mod 2 ^ (- e) =? 0) eqn:Hex.
      * apply Z.eqb_eq in Hex.
        assert (Hm : Z.pos m = Z.pos m / 2 ^ (- e) * 2 ^ (- e)).
        { pose proof (Z.div_mod (Z.pos m) (2 ^ (- e)) ltac:(lia)). lia. }
        assert (Hx : F2R (Z.pos m) e = IZR (Z.pos m / 2 ^ (- e))).
        { rewrite Hm at 1. symmetry. apply IZR_F2R. lia. }
        exists (Z.pos m / 2 ^ (- e)).
        unfold Ffin, FR. rewrite E, SF2R_finite.
        split; [split; [apply Hk0 | apply Hk]; lra|].
        split; [lra|]. split; [reflexivity | exact Hx].
      * assert (Hlt : (F2R (Z.pos m) e < F2R (Z.pos m + 1) e)%R).
        { rewrite F2R_succ. pose proof (bpow_gt_0 e). lra. }
        rewrite plus_IZR in Hhi.
        assert (Hq : 0 <= Z.pos m / 2 ^ (- e) <= 180).
        { split; [apply Hk0 | apply Hk]; lra. }
        exists (Z.pos m / 2 ^ (- e)).
        split; [exact Hq|]. split; [lra|].
        apply Number_of_Z_degrees. exact Hq.
Qed.

(** ** The packed coordinate *)

Lemma Ffin_pos (y : float) :
  Ffin y -> (0 < FR y)%R ->
  exists m e, Prim2SF y = S754_finite false m e.
Proof.
  unfold Ffin, FR. intros Hf Hpos.
  destruct (Prim2SF y) as [s| | |s m e]; try discriminate Hf.
  - cbn [SF2R] in Hpos. lra.
  - rewrite SF2R_finite in Hpos. pose proof (F2R_pos m e).
    destruct s; [lra|]. exists m, e. reflexivity.
Qed.

Lemma IZR_bounds (k lo hi : Z) : lo <= k <= hi -> (IZR lo <= IZR k <= IZR hi)%R.
Proof. intros [H1 H2]. split; apply IZR_le; assumption. Qed.

Ltac is_small := split; [assumption | lra].

(** Packing a coordinate of magnitude at most 180 and unpacking it gives the
    magnitude back, up to four roundings. *)
Lemma unpack_pack_ddmm (c : float) :
  (abs c <=? 180)%float = true ->
  Ffin c
  /\ Ffin (unpack_ddmm (pack_ddmm c))
  /\ (- 180 <= FR c <= 180)%R
  /\ ((if (c <? 0)%float then - FR c else FR c) - 4 * eps
      <= FR (unpack_ddmm (pack_ddmm c))
      <= (if (c <? 0)%float then - FR c else FR c) + 4 * eps)%R.
Proof.
  intros Hle.
  pose proof eps_pos as Heps. pose proof eps_small as Heps'.
  destruct FR_180 as [Hf180 E180].
  destruct FR_100 as [Hf100 E100].
  destruct FR_60 as [Hf60 E60].
  destruct (Ffin_pos 180 Hf180 ltac:(lra)) as [m180 [e180 P180]].
  destruct (abs_leb_inv c 180 m180 e180 P180 Hle) as [Hfc Hbc].
  rewrite E180 in Hbc.
  destruct (abs_bound c Hfc) as [Hfa [Ea Ha0]].
  assert (HA : (FR (abs c) <= 180)%R).
  { rewrite Ea. destruct (c <? 0)%float; lra. }
  rewrite <- Ea. clear Ea.
  unfold unpack_ddmm, pack_ddmm, unsigned_degrees. cbv zeta.
  cbn [degrees minutes].
  set (a := abs c) in *.
  destruct (Math_floor_degrees a Hfa ltac:(lra)) as [k [Hk [HkA [HfD ED]]]].
  set (D := Math_floor a) in *.
  pose proof (IZR_bounds k 0 180 Hk) as HkR.
  (* the packer *)
  destruct (sub_bound a D ltac:(is_small) ltac:(is_small) ltac:(lra))
    as [Hff [Hbf Hmf]].
  specialize (Hmf ltac:(lra) 0 ltac:(lra)).
  set (f := (a - D)%float) in *.
  destruct (mul_bound f 60 ltac:(is_small) ltac:(is_small)
              ltac:(rewrite E60; lra)) as [HfM [HbM HmM]].
  rewrite E60 in HbM, HmM.
  specialize (HmM ltac:(lra) ltac:(lra) 0 ltac:(lra)).
  set (M := (f * 60)%float) in *.
  destruct (mul_bound D 100 ltac:(is_small) ltac:(is_small)
              ltac:(rewrite ED, E100; lra)) as [HfT [HbT HmT]].
  rewrite ED, E100 in HbT, HmT.
  specialize (HmT ltac:(lra) ltac:(lra) (k * 100)).
  rewrite mult_IZR in HmT. specialize (HmT ltac:(lra)).
  set (T := (D * 100)%float) in *.
  destruct (add_bound T M ltac:(is_small) ltac:(is_small) ltac:(lra))
    as [Hfp [Hbp Hmp]].
  specialize (Hmp ltac:(lra) (k * 100)).
  rewrite mult_IZR in Hmp. specialize (Hmp ltac:(lra)).
  set (p := (T + M)%float) in *.
  (* the decoder *)
  destruct (div_bound p 100 Hfp Hf100 ltac:(lra) ltac:(rewrite E100; lra))
    as [Hfq [Hbq Hmq]].
  specialize (Hmq ltac:(lra) k). rewrite E100 in Hmq, Hbq.
  specialize (Hmq ltac:(lra)).
  set (q := (p / 100)%float) in *.
  destruct (Math_floor_degrees q Hfq ltac:(lra))
    as [k' [Hk' [Hk'q [HfD' ED']]]].
  assert (Ekk : k' = k).
  { assert (H1 : (IZR k < IZR (k' + 1))%R) by (rewrite plus_IZR; lra).
    assert (H2 : (IZR k' < IZR (k + 1))%R) by (rewrite plus_IZR; lra).
    apply lt_IZR in H1, H2. lia. }
  subst k'. clear Hk' Hk'q.
  set (D' := Math_floor q) in *.
  destruct (mul_bound D' 100 ltac:(is_small) ltac:(is_small)
              ltac:(rewrite ED', E100; lra)) as [HfT' [HbT' _]].
  rewrite ED', E100 in HbT'.
  set (T' := (D' * 100)%float) in *.
  destruct (sub_bound p T' ltac:(is_small) ltac:(is_small) ltac:(lra))
    as [HfM' [HbM' _]].
  set (M' := (p - T')%float) in *.
  destruct (div_bound M' 60 HfM' Hf60 ltac:(lra) ltac:(rewrite E60; lra))
    as [Hfg [Hbg _]].
  rewrite E60 in Hbg.
  set (g := (M' / 60)%float) in *.
  destruct (add_bound D' g ltac:(is_small) ltac:(is_small) ltac:(lra))
    as [HfR [HbR _]].
  split; [exact Hfc|]. split; [exact HfR|]. split; [exact Hbc|].
  lra.
Qed.

Lemma tolerance_value :
  Prim2SF tolerance = S754_finite false 0x14f8b588e368f1 (-69).
Proof. vm_compute. reflexivity. Qed.

Lemma tolerance_lower : (5 * eps < FR tolerance)%R.
Proof.
  unfold FR. rewrite tolerance_value, SF2R_finite. cbn [cond_Zopp].
  assert (H1 : (F2R (1 * 2 ^ 52) (-69) <= F2R 0x14f8b588e368f1 (-69))%R)
    by (apply F2R_le; vm_compute; discriminate).
  rewrite F2R_shift in H1 by lia.
  assert (H2 : F2R 1 (-69 + 52) = (IZR (2 ^ 20) * bpow (-37))%R).
  { unfold F2R. rewrite <- (bpow_IZR 20) by lia. rewrite <- bpow_add.
    replace (20 + -37) with (-69 + 52) by lia. ring. }
  assert (H3 : IZR (2 ^ 20) = 1048576%R) by reflexivity.
  pose proof (bpow_gt_0 (-37)). unfold eps. lra.
Qed.

(** A decoded magnitude within four roundings of the coordinate's, given the
    coordinate's sign, is within the tolerance of the coordinate. *)
Lemma within_tolerance (c u : float) :
  Ffin c -> Ffin u -> (- 180 <= FR c <= 180)%R ->
  ((if (c <? 0)%float then - FR c else FR c) - 4 * eps
   <= FR u
   <= (if (c <? 0)%float then - FR c else FR c) + 4 * eps)%R ->
  (abs ((if (c <? 0)%float then - u else u) - c) <=? tolerance)%float = true.
Proof.
  intros Hfc Hfu Hbc Hbu.
  pose proof eps_pos as Heps. pose proof eps_small as Heps'.
  pose proof tolerance_lower as Htol.
  set (v := if (c <? 0)%float then (- u)%float else u).
  assert (Hv : Ffin v /\ (- 4 * eps <= FR v - FR c <= 4 * eps)%R).
  { unfold v. destruct (c <? 0)%float.
    - split; [apply Ffin_opp; exact Hfu | rewrite FR_opp; lra].
    - split; [exact Hfu | lra]. }
  destruct Hv as [Hfv Hbv].
  destruct (sub_bound v c ltac:(is_small) ltac:(is_small) ltac:(lra))
    as [Hfd [Hbd _]].
  set (d := (v - c)%float) in *.
  destruct (abs_bound d Hfd) as [Hfa [Ea Ha0]].
  apply (leb_true (abs d) tolerance _ _ tolerance_value Hfa).
  split; [exact Ha0|]. rewrite Ea. destruct (d <? 0)%float; lra.
Qed.

Lemma strict_eq_marker (b : bool) (x k1 k2 : Z) :
  k1 <> k2 ->
  strict_eq (Some (if b then k1 else k2)) k1 = b.
Proof.
  intros Hne. cbn [strict_eq]. destruct b.
  - apply Z.eqb_refl.
  - apply Z.eqb_neq. congruence.
Qed.

(** A 22-byte frame whose two doubles read as packed coordinates and whose
    markers follow the signs decodes to the coordinates, within the
    tolerance. *)
Lemma decodeUplink_gps_packed (now : Date) (input : Uplink.input)
    (lng lat : float) :
  let bytes := Uplink.bytes input in
  List.length bytes = 22%nat ->
  (abs lng <=? 180)%float = true ->
  (abs lat <=? 180)%float = true ->
  getFloat64_le (map ToUint8 (slice bytes 0 8)) 0 = pack_ddmm lng ->
  get bytes 8 = Some (if (lng <? 0)%float then 0x57 else 0x45) ->
  getFloat64_le (map ToUint8 (slice bytes 9 17)) 0 = pack_ddmm lat ->
  get bytes 17 = Some (if (lat <? 0)%float then 0x53 else 0x4e) ->
  exists r : GPS.t,
    decodeUplink now input = Normal {| Uplink.data := DataGPS r |}
    /\ (abs (GPS.longitude r - lng) <=? tolerance)%float = true
    /\ (abs (GPS.latitude r - lat) <=? tolerance)%float = true.
Proof.
  intros bytes Hlen Hlng180 Hlat180 Rlng Mlng Rlat Mlat.
  destruct (decodeUplink_gps now input Hlen)
    as [lngDM [latDM [Hlng [Hlat Hdec]]]].
  fold bytes in Hlng, Hlat, Hdec.
  rewrite parseGPS_value in Hlng
    by (rewrite slice_length; [reflexivity | lia]).
  rewrite parseGPS_value in Hlat
    by (rewrite slice_length; [reflexivity | lia]).
  apply Normal_inj in Hlng. apply Normal_inj in Hlat.
  rewrite Rlng in Hlng. rewrite Rlat in Hlat.
  fold (unpack_ddmm (pack_ddmm lng)) in Hlng.
  rewrite Mlng, Mlat in Hdec.
  rewrite (strict_eq_marker _ 0 0x57 0x45) in Hdec by discriminate.
  rewrite (strict_eq_marker _ 0 0x53 0x4e) in Hdec by discriminate.
  rewrite <- Hlng, <- Hlat in Hdec.
  fold (unpack_ddmm (pack_ddmm lng)) in Hdec.
  fold (unpack_ddmm (pack_ddmm lat)) in Hdec.
  eexists. split; [exact Hdec|].
  cbn [GPS.longitude GPS.latitude].
  destruct (unpack_pack_ddmm lng Hlng180) as [H1 [H2 [H3 H4]]].
  destruct (unpack_pack_ddmm lat Hlat180) as [H5 [H6 [H7 H8]]].
  split; apply within_tolerance; assumption.
Qed.

(** ** Writing a double *)

Lemma le_uint_le_bytes (n : nat) (w : Z) :
  0 <= w < 256 ^ Z.of_nat n -> le_uint (le_bytes n w) = w.
Proof.
  revert w. induction n as [|n IH]; intros w Hw.
  - cbn [le_bytes le_uint]. change (256 ^ Z.of_nat 0) with 1 in Hw. lia.
  - cbn [le_bytes le_uint]. rewrite IH.
    + pose proof (Z.div_mod w 256 ltac:(lia)). lia.
    + rewrite Nat2Z.inj_succ, Z.pow_succ_r in Hw by lia.
      split; [apply Z.div_pos; lia|].
      apply Z.div_lt_upper_bound; lia.
Qed.

Lemma map_ToUint8_le_bytes (n : nat) (w : Z) :
  map ToUint8 (le_bytes n w) = le_bytes n w.
Proof.
  revert w. induction n as [|n IH]; intros w; cbn [le_bytes map].
  - reflexivity.
  - rewrite IH. unfold ToUint8. rewrite Z.mod_mod by lia. reflexivity.
Qed.

Lemma le_bytes_length (n : nat) (w : Z) : List.length (le_bytes n w) = n.
Proof.
  revert w. induction n as [|n IH]; intros w; cbn [le_bytes List.length].
  - reflexivity.
  - rewrite IH. reflexivity.
Qed.

(** The three fields of a pattern put together from them. *)
Lemma bits_fields (s : bool) (E F : Z) :
  0 <= E < 2048 -> 0 <= F < 2 ^ 52 ->
  let w := (if s then 2 ^ 63 else 0) + (E * 2 ^ 52 + F) in
  0 <= w < 256 ^ 8
  /\ Z.testbit w 63 = s
  /\ Z.land (Z.shiftr w 52) 2047 = E
  /\ Z.land w (2 ^ 52 - 1) = F.
Proof.
  intros HE HF w.
  assert (Hw : 0 <= w < 256 ^ 8).
  { unfold w. change (256 ^ 8) with (2 ^ 64).
    change (2 ^ 63) with 9223372036854775808.
    change (2 ^ 64) with 18446744073709551616.
    change (2 ^ 52) with 4503599627370496 in *.
    destruct s; lia. }
  split; [exact Hw|].
  assert (H63 : w / 2 ^ 63 = if s then 1 else 0).
  { unfold w. change (2 ^ 63) with 9223372036854775808.
    change (2 ^ 52) with 4503599627370496 in *.
    destruct s.
    - symmetry. apply (Z.div_unique _ _ 1 (E * 4503599627370496 + F)); lia.
    - apply Z.div_small. lia. }
  assert (H52 : w / 2 ^ 52 = (if s then 2048 else 0) + E).
  { unfold w. change (2 ^ 63) with 9223372036854775808.
    change (2 ^ 52) with 4503599627370496 in *.
    symmetry.
    apply (Z.div_unique _ _ _ F); destruct s; lia. }
  assert (Hlow : w mod 2 ^ 52 = F).
  { unfold w. change (2 ^ 63) with 9223372036854775808.
    change (2 ^ 52) with 4503599627370496 in *.
    symmetry.
    apply (Z.mod_unique _ _ ((if s then 2048 else 0) + E) F);
      destruct s; lia. }
  split; [|split].
  - rewrite Z.testbit_odd, Z.shiftr_div_pow2, H63 by lia.
    destruct s; reflexivity.
  - rewrite Z.shiftr_div_pow2, H52 by lia.
    change 2047 with (Z.ones 11). rewrite Z.land_ones by lia.
    change (2 ^ 11) with 2048.
    destruct s.
    + symmetry. apply (Z.mod_unique _ _ 1 E); lia.
    + apply Z.mod_small. lia.
  - change (2 ^ 52 - 1) with (Z.ones 52). rewrite Z.land_ones by lia.
    exact Hlow.
Qed.

Lemma valid_exponent_upper (s : bool) (m : positive) (e : Z) :
  valid64 (S754_finite s m e) = true -> e <= 971.
Proof.
  intros Hv. cbn [SpecFloat.valid_binary] in Hv. unfold bounded in Hv.
  apply andb_prop in Hv. destruct Hv as [_ He].
  apply Z.leb_le in He. exact He.
Qed.

Lemma float_of_bits_fields (s : bool) (E F : Z) :
  0 <= E < 2048 -> 0 <= F < 2 ^ 52 ->
  float_of_bits ((if s then 2 ^ 63 else 0) + (E * 2 ^ 52 + F))
  = if E =? 2047 then
      if F =? 0 then (if s then neg_infinity else infinity) else nan
    else if E =? 0 then
      if F =? 0 then (if s then neg_zero else zero)
      else SF2Prim (S754_finite s (Z.to_pos F) (-1074))
    else SF2Prim (S754_finite s (Z.to_pos (F + 2 ^ 52)) (E - 1075)).
Proof.
  intros HE HF.
  destruct (bits_fields s E F HE HF) as [_ [H1 [H2 H3]]].
  unfold float_of_bits. cbv zeta. rewrite H1, H2, H3. reflexivity.
Qed.

(** Reading back the pattern of a number gives the number. *)
Lemma float_of_bits_of_float (x : float) :
  float_of_bits (bits_of_float x) = x.
Proof.
  rewrite <- (SF2Prim_Prim2SF x) at 2.
  pose proof (Prim2SF_valid x) as Hv.
  unfold bits_of_float.
  destruct (Prim2SF x) as [s|s| |s m e].
  - replace (if s then 2 ^ 63 else 0)
      with ((if s then 2 ^ 63 else 0) + (0 * 2 ^ 52 + 0)) by lia.
    rewrite float_of_bits_fields by (split; first [lia | reflexivity]).
    destruct s; reflexivity.
  - replace ((if s then 2 ^ 63 else 0) + 2047 * 2 ^ 52)
      with ((if s then 2 ^ 63 else 0) + (2047 * 2 ^ 52 + 0)) by lia.
    rewrite float_of_bits_fields by (split; first [lia | reflexivity]).
    destruct s; reflexivity.
  - change (2047 * 2 ^ 52 + 2 ^ 51)
      with ((if false then 2 ^ 63 else 0) + (2047 * 2 ^ 52 + 2 ^ 51)).
    rewrite float_of_bits_fields by (split; first [lia | reflexivity]).
    reflexivity.
  - destruct (valid_mantissa s m e Hv) as [Hlo [Hhi Hnorm]].
    pose proof (valid_exponent_upper s m e Hv) as Hup.
    destruct (Z.pos m <? 2 ^ 52) eqn:Hsub.
    + apply Z.ltb_lt in Hsub.
      assert (He : e = -1074) by lia. subst e.
      replace (Z.pos m) with (0 * 2 ^ 52 + Z.pos m) at 1 by lia.
      rewrite float_of_bits_fields by lia.
      change (0 =? 2047) with false. change (0 =? 0) with true. cbv iota.
      destruct (Z.pos m =? 0) eqn:H0; [apply Z.eqb_eq in H0; lia|].
      reflexivity.
    + apply Z.ltb_ge in Hsub.
      rewrite float_of_bits_fields by lia.
      destruct (e + 1075 =? 2047) eqn:H1; [apply Z.eqb_eq in H1; lia|].
      destruct (e + 1075 =? 0) eqn:H2; [apply Z.eqb_eq in H2; lia|].
      replace (Z.pos m - 2 ^ 52 + 2 ^ 52) with (Z.pos m) by lia.
      replace (e + 1075 - 1075) with e by lia.
      reflexivity.
Qed.

Lemma bits_of_float_range (x : float) : 0 <= bits_of_float x < 256 ^ 8.
Proof.
  pose proof (Prim2SF_valid x) as Hv.
  unfold bits_of_float.
  destruct (Prim2SF x) as [s|s| |s m e].
  - destruct s; split; try lia; reflexivity.
  - destruct s; split; try lia; reflexivity.
  - split; [lia | reflexivity].
  - destruct (valid_mantissa s m e Hv) as [Hlo [Hhi Hnorm]].
    pose proof (valid_exponent_upper s m e Hv) as Hup.
    destruct (Z.pos m <? 2 ^ 52) eqn:Hsub.
    + apply Z.ltb_lt in Hsub.
      replace (Z.pos m) with (0 * 2 ^ 52 + Z.pos m) by lia.
      apply (bits_fields s 0 (Z.pos m)); lia.
    + apply Z.ltb_ge in Hsub.
      apply (bits_fields s (e + 1075) (Z.pos m - 2 ^ 52)); lia.
Qed.

(** Reading the 8 written bytes as a little-endian double gives the number
    back. *)
Lemma getFloat64_le_setFloat64_le (x : float) :
  getFloat64_le (map ToUint8 (setFloat64_le x)) 0 = x.
Proof.
  unfold setFloat64_le. rewrite map_ToUint8_le_bytes.
  unfold getFloat64_le, slice. cbn [Nat.add Nat.sub skipn].
  rewrite firstn_all2 by (rewrite le_bytes_length; lia).
  rewrite le_uint_le_bytes by exact (bits_of_float_range _).
  apply float_of_bits_of_float.
Qed.

(** ** The frame of a position and its decode *)

(** Where the decoder finds the two doubles and the two markers. *)
Lemma gps_frame_parts (lng lat : float) (tail : list Z) :
  let frame := gps_frame lng lat tail in
  List.length frame = (18 + List.length tail)%nat
  /\ slice frame 0 8 = setFloat64_le (pack_ddmm lng)
  /\ get frame 8 = Some (if (lng <? 0)%float then 0x57 else 0x45)
  /\ slice frame 9 17 = setFloat64_le (pack_ddmm lat)
  /\ get frame 17 = Some (if (lat <? 0)%float then 0x53 else 0x4e).
Proof.
  unfold gps_frame, setFloat64_le.
  generalize (bits_of_float (pack_ddmm lng)) as w1.
  generalize (bits_of_float (pack_ddmm lat)) as w2.
  generalize (if (lng <? 0)%float then 0x57 else 0x45) as k1.
  generalize (if (lat <? 0)%float then 0x53 else 0x4e) as k2.
  intros k2 k1 w2 w1. cbv zeta.
  cbn [le_bytes app List.length slice get nth_error Nat.sub Nat.add
       skipn firstn].
  repeat split.
Qed.

(** C4: GPS decode round-trips.  For every position whose longitude and
    latitude are at most 180 in magnitude, the 22-byte frame that carries
    each coordinate in packed [DDMM.MMMMM] form as a little-endian double,
    with [W] or [S] for a negative coordinate and [E] or [N] otherwise,
    decodes to a GPS record whose longitude and latitude are within [1e-5]
    of the position's. *)
Theorem decodeUplink_gps_round_trip (now : Date) (fPort : Z)
    (lng lat : float) (tail : list Z) :
  List.length tail = 4%nat ->
  (abs lng <=? 180)%float = true ->
  (abs lat <=? 180)%float = true ->
  exists r : GPS.t,
    decodeUplink now
      {| Uplink.bytes := gps_frame lng lat tail; Uplink.fPort := fPort |}
    = Normal {| Uplink.data := DataGPS r |}
    /\ (abs (GPS.longitude r - lng) <=? tolerance)%float = true
    /\ (abs (GPS.latitude r - lat) <=? tolerance)%float = true.
Proof.
  intros Htail Hlng Hlat.
  destruct (gps_frame_parts lng lat tail) as [Hlen [S1 [M1 [S2 M2]]]].
  apply decodeUplink_gps_packed; cbn [Uplink.bytes].
  - rewrite Hlen, Htail. reflexivity.
  - exact Hlng.
  - exact Hlat.
  - rewrite S1. apply getFloat64_le_setFloat64_le.
  - exact M1.
  - rewrite S2. apply getFloat64_le_setFloat64_le.
  - exact M2.
Qed.

Lemma decodeUplink_gps_round_trip_witness :
  gps_frame 179.5 (-22.25) [0; 0; 0; 0]
  = [0; 0; 0; 0; 128; 130; 209; 64; 0x45;
     0; 0; 0; 0; 0; 78; 161; 64; 0x53;
     0; 0; 0; 0]
  /\ exists r : GPS.t,
       decodeUplink (Some 0)
         {| Uplink.bytes := gps_frame 179.5 (-22.25) [0; 0; 0; 0];
            Uplink.fPort := 1 |}
       = Normal {| Uplink.data := DataGPS r |}
       /\ (abs (GPS.longitude r - 179.5) <=? tolerance)%float = true
       /\ (abs (GPS.latitude r - -22.25) <=? tolerance)%float = true.
Proof.
  split; [vm_compute; reflexivity|].
  apply (decodeUplink_gps_round_trip (Some 0) 1 179.5 (-22.25) [0; 0; 0; 0]);
    [reflexivity | vm_compute; reflexivity | vm_compute; reflexivity].
Defined.
